(** * claude-context: the capture / aggregate / store pipeline

    A shallow embedding of
    - [capture/observation.py]   (the two record types),
    - [capture/aggregator.py]    ([aggregate]),
    - [capture/buffer.py]        ([ObservationBuffer], method by method and
                                  statement by statement under concurrent
                                  callers),
    - [storage/dynamo.py]        ([write_observation], [flush_observations],
                                  [fetch_service_data], against a model of
                                  the store's [update_item] and [query]),
    - [generation/transformer.py] (the reading of the sort key),
    - [capture/extractor.py]     ([extract_fields], [extract_query_params]),
    and the properties of the specification, and of the code, that these
    decide. *)

From Stdlib Require Import ZArith Lia Ascii String.
From stdpp Require Import gmap strings pretty list fin_maps.

Open Scope Z_scope.

#[local] Set Warnings "-clear-no-such-hyp,-register-all".

(** ** capture/observation.py *)

(** A timezone-aware [datetime]: the instant (microseconds since the epoch)
    and the UTC offset it is displayed in.  Python orders and compares aware
    datetimes by their instant alone. *)
Record datetime := Datetime { instant : Z; utcoffset : Z }.

Definition dt_lt (a b : datetime) : bool := bool_decide (instant a < instant b).
Definition dt_gt (a b : datetime) : bool := bool_decide (instant a > instant b).

Record Observation := mkObservation {
  o_service_name : string;
  o_caller : string;
  o_method : string;
  o_path_template : string;
  o_request_fields : gset string;
  o_request_headers : gset string;
  o_query_params : gset string;
  o_status_code : Z;
  o_timestamp : datetime
}.

Record AggregatedObservation := mkAggregated {
  service_name : string;
  caller : string;
  method : string;
  path_template : string;
  request_fields : gset string;
  request_headers : gset string;
  query_params : gset string;
  response_codes : gset string;
  call_count : Z;
  first_seen : datetime;
  last_seen : datetime
}.

(** [str(n)] for a Python [int]: decimal digits, a leading minus sign for
    negatives. *)
Definition str (n : Z) : string := pretty n.

(** ** capture/aggregator.py *)

Module Aggregator.

(** The dictionary key [(service_name, caller, method, path_template)]. *)
Definition key : Type := string * string * string * string.

Definition obs_key (obs : Observation) : key :=
  (o_service_name obs, o_caller obs, o_method obs, o_path_template obs).

Definition agg_key (agg : AggregatedObservation) : key :=
  (service_name agg, caller agg, method agg, path_template agg).

(** [groups] is a Python [dict]: it keeps its keys in insertion order, and
    [list(groups.values())] lists the values in that order.  It is modelled
    as an association list with at most one binding per key. *)
Abbreviation groups_t := (list (key * AggregatedObservation)).

Fixpoint getitem (k : key) (groups : groups_t) : option AggregatedObservation :=
  match groups with
  | [] => None
  | (k', agg) :: rest => if decide (k = k') then Some agg else getitem k rest
  end.

(** [groups[k] = agg]: overwrite in place when [k] is bound, append at the
    end when it is not. *)
Fixpoint setitem (k : key) (agg : AggregatedObservation) (groups : groups_t)
  : groups_t :=
  match groups with
  | [] => [(k, agg)]
  | (k', agg') :: rest =>
      if decide (k = k') then (k, agg) :: rest else (k', agg') :: setitem k agg rest
  end.

Definition values (groups : groups_t) : list AggregatedObservation :=
  groups.*2.

(** Lines 12-24: the record created for an unseen key. *)
Definition fresh (obs : Observation) : AggregatedObservation :=
  {| service_name := o_service_name obs;
     caller := o_caller obs;
     method := o_method obs;
     path_template := o_path_template obs;
     request_fields := o_request_fields obs;
     request_headers := o_request_headers obs;
     query_params := o_query_params obs;
     response_codes := {[ str (o_status_code obs) ]};
     call_count := 1;
     first_seen := o_timestamp obs;
     last_seen := o_timestamp obs |}.

(** Lines 26-35: the in-place update of the record of a seen key. *)
Definition merge (agg : AggregatedObservation) (obs : Observation)
  : AggregatedObservation :=
  {| service_name := service_name agg;
     caller := caller agg;
     method := method agg;
     path_template := path_template agg;
     request_fields := request_fields agg ∪ o_request_fields obs;
     request_headers := request_headers agg ∪ o_request_headers obs;
     query_params := query_params agg ∪ o_query_params obs;
     response_codes := response_codes agg ∪ {[ str (o_status_code obs) ]};
     call_count := call_count agg + 1;
     first_seen :=
       if dt_lt (o_timestamp obs) (first_seen agg)
       then o_timestamp obs else first_seen agg;
     last_seen :=
       if dt_gt (o_timestamp obs) (last_seen agg)
       then o_timestamp obs else last_seen agg |}.

(** One iteration of the [for obs in observations] loop. *)
Definition step (groups : groups_t) (obs : Observation) : groups_t :=
  let k := obs_key obs in
  match getitem k groups with
  | None => setitem k (fresh obs) groups
  | Some agg => setitem k (merge agg obs) groups
  end.

(** The loop, started from an arbitrary dictionary. *)
Definition aggregate_from (groups : groups_t) (observations : list Observation)
  : groups_t :=
  fold_left step observations groups.

(** [aggregate]: the loop started from [groups = {}], then
    [list(groups.values())]. *)
Definition aggregate (observations : list Observation)
  : list AggregatedObservation :=
  values (aggregate_from [] observations).

(** The observations of a batch that carry a given key. *)
Definition with_key (k : key) (observations : list Observation)
  : list Observation :=
  filter (λ obs, obs_key obs = k) observations.

(** What the loop does to the binding of one key, seen in isolation. *)
Definition absorb (acc : option AggregatedObservation) (obs : Observation)
  : option AggregatedObservation :=
  Some (match acc with None => fresh obs | Some agg => merge agg obs end).

Definition summary (start : option AggregatedObservation)
  (observations : list Observation) : option AggregatedObservation :=
  fold_left absorb observations start.

(** [d] is the first element of [ts], in list order, whose instant is the
    least one: every earlier element is strictly later in time. *)
Definition keeps_earliest (d : datetime) (ts : list datetime) : Prop :=
  ∃ pre post, ts = pre ++ d :: post
    ∧ Forall (λ t, instant d < instant t) pre
    ∧ Forall (λ t, instant d ≤ instant t) post.

Definition keeps_latest (d : datetime) (ts : list datetime) : Prop :=
  ∃ pre post, ts = pre ++ d :: post
    ∧ Forall (λ t, instant t < instant d) pre
    ∧ Forall (λ t, instant t ≤ instant d) post.

Definition is_minimum (m : Z) (zs : list Z) : Prop :=
  m ∈ zs ∧ Forall (λ z, m ≤ z) zs.

Definition is_maximum (m : Z) (zs : list Z) : Prop :=
  m ∈ zs ∧ Forall (λ z, z ≤ m) zs.

Definition instants (observations : list Observation) : list Z :=
  (λ obs, instant (o_timestamp obs)) <$> observations.

(** Reading one attribute off an optional record: the empty set and the
    count zero stand for a key that has no record. *)
Definition set_of (f : AggregatedObservation → gset string)
  (o : option AggregatedObservation) : gset string := from_option f ∅ o.

Definition count_of (o : option AggregatedObservation) : Z :=
  from_option call_count 0 o.

Definition codes (observations : list Observation) : gset string :=
  list_to_set ((λ obs, str (o_status_code obs)) <$> observations).

(** The distinct elements of a list, in the order of their first
    occurrences. *)
Fixpoint keep_first (l : list key) : list key :=
  match l with
  | [] => []
  | k :: l' => k :: filter (λ k', k' ≠ k) (keep_first l')
  end.

Definition total_count (aggs : list AggregatedObservation) : Z :=
  foldr (λ agg n, call_count agg + n) 0 aggs.

(** The dictionary invariant: keys are unique and every value is stored
    under its own key. *)
Definition wf (groups : groups_t) : Prop :=
  NoDup groups.*1 ∧ Forall (λ kv, agg_key kv.2 = kv.1) groups.

End Aggregator.

(** ** storage/dynamo.py *)

(** Outcome of a call that may raise: the error is the exception's name. *)
Inductive result (A : Type) : Type :=
| Ok (a : A)
| Err (e : string).
Arguments Ok {A} a.
Arguments Err {A} e.

Definition rbind {A B} (r : result A) (f : A → result B) : result B :=
  match r with Ok a => f a | Err e => Err e end.

Definition of_option {A} (o : option A) (e : string) : result A :=
  match o with Some a => Ok a | None => Err e end.

Module Dynamo.

(** *** The store: the part of DynamoDB that the client relies on *)

(** Attribute values: numbers, strings and string sets. *)
Inductive attr : Type :=
| AttrN (n : Z)
| AttrS (s : string)
| AttrSS (ss : gset string).

#[global] Instance attr_eq_dec : EqDecision attr.
Proof. solve_decision. Defined.

Abbreviation item := (gmap string attr).
(** A table with a composite primary key: partition key [PK], sort key [SK]. *)
Abbreviation table := (gmap (string * string) item).

Record update_item_request := UpdateItem {
  Key : string * string;
  UpdateExpression : string;
  ExpressionAttributeNames : gmap string string;
  ExpressionAttributeValues : gmap string attr
}.

(** The actions of an update expression. *)
Inductive operand : Type :=
| Val (ref : string)
| IfNotExists (path : string) (ref : string).

Inductive action : Type :=
| SetAction (path : string) (rhs : operand)
| AddAction (path : string) (ref : string).

(** Split [s] at the occurrences of [sep] that are outside parentheses.
    [skip] counts the characters of a separator still to be dropped. *)
Fixpoint split_top (sep : string) (skip depth : nat) (cur s : string)
  : list string :=
  match s with
  | EmptyString => [cur]
  | String c s' =>
      match skip with
      | S n => split_top sep n depth cur s'
      | O =>
          if (depth =? 0)%nat && String.prefix sep s
          then cur :: split_top sep (String.length sep - 1) depth "" s'
          else
            let depth' :=
              if Ascii.eqb c "("%char then S depth
              else if Ascii.eqb c ")"%char then pred depth else depth in
            split_top sep 0 depth' (cur +:+ String c "") s'
      end
  end.

Definition split (sep s : string) : list string := split_top sep 0 0 "" s.

Definition drop_prefix (n : nat) (s : string) : string :=
  String.substring n (String.length s - n) s.

Definition parse_operand (s : string) : option operand :=
  if String.prefix "if_not_exists(" s
  then
    let inner := String.substring 14 (String.length s - 15) s in
    if String.eqb (drop_prefix (String.length s - 1) s) ")"
    then match split ", " inner with
         | [path; ref] => Some (IfNotExists path ref)
         | _ => None
         end
    else None
  else Some (Val s).

Definition parse_set (clause : string) : option action :=
  match split " = " clause with
  | [path; rhs] => SetAction path <$> parse_operand rhs
  | _ => None
  end.

Definition parse_add (clause : string) : option action :=
  match split " " clause with
  | [path; ref] => Some (AddAction path ref)
  | _ => None
  end.

(** The fragment [SET a, ... [ADD b, ...]] of the update-expression
    grammar. *)
Definition parse_update_expression (e : string) : option (list action) :=
  if String.prefix "SET " e
  then match split " ADD " (drop_prefix 4 e) with
       | [sets] => mapM parse_set (split ", " sets)
       | [sets; adds] =>
           s ← mapM parse_set (split ", " sets);
           a ← mapM parse_add (split ", " adds);
           Some (s ++ a)
       | _ => None
       end
  else None.

Definition ValidationException : string := "ValidationException".

(** A path is an attribute name or a [#placeholder] for one. *)
Definition resolve_path (names : gmap string string) (p : string)
  : result string :=
  if String.prefix "#" p then of_option (names !! p) ValidationException
  else Ok p.

Definition action_refs (a : action) : list string :=
  match a with
  | SetAction _ (Val r) | SetAction _ (IfNotExists _ r) | AddAction _ r => [r]
  end.

Definition action_paths (a : action) : list string :=
  match a with
  | SetAction p (Val _) | AddAction p _ => [p]
  | SetAction p (IfNotExists q _) => [p; q]
  end.

(** The request-level checks: a string set may not be empty, every value
    and every name placeholder must be used by the expression. *)
Definition validate (acts : list action) (req : update_item_request) : bool :=
  bool_decide (map_Forall (λ _ v, v ≠ AttrSS ∅) (ExpressionAttributeValues req))
  && bool_decide (map_Forall (λ r _, r ∈ acts ≫= action_refs)
                    (ExpressionAttributeValues req))
  && bool_decide (map_Forall (λ p _, p ∈ acts ≫= action_paths)
                    (ExpressionAttributeNames req)).

(** One action.  Operands are read from the item as it was before the
    update ([old]); the effect goes to [new]. *)
Definition apply_action (req : update_item_request) (old : item)
  (new : result item) (a : action) : result item :=
  rbind new (λ new,
  match a with
  | SetAction p rhs =>
      rbind (resolve_path (ExpressionAttributeNames req) p) (λ p,
      match rhs with
      | Val r =>
          rbind (of_option (ExpressionAttributeValues req !! r)
                   ValidationException) (λ v, Ok (<[p := v]> new))
      | IfNotExists q r =>
          rbind (resolve_path (ExpressionAttributeNames req) q) (λ q,
          rbind (of_option (ExpressionAttributeValues req !! r)
                   ValidationException) (λ v,
          Ok (<[p := default v (old !! q)]> new)))
      end)
  | AddAction p r =>
      rbind (resolve_path (ExpressionAttributeNames req) p) (λ p,
      rbind (of_option (ExpressionAttributeValues req !! r)
               ValidationException) (λ v,
      match v, old !! p with
      | AttrN n, None => Ok (<[p := AttrN n]> new)
      | AttrN n, Some (AttrN m) => Ok (<[p := AttrN (m + n)]> new)
      | AttrSS s, None => Ok (<[p := AttrSS s]> new)
      | AttrSS s, Some (AttrSS s0) => Ok (<[p := AttrSS (s0 ∪ s)]> new)
      | _, _ => Err ValidationException
      end))
  end).

(** The item an update starts from: the stored one, or a new item that
    holds the key attributes alone. *)
Definition item_or_new (t : table) (k : string * string) : item :=
  default {[ "PK" := AttrS k.1; "SK" := AttrS k.2 ]} (t !! k).

Definition update_item_on (old : item) (req : update_item_request)
  : result item :=
  rbind (of_option (parse_update_expression (UpdateExpression req))
           ValidationException) (λ acts,
  if validate acts req
  then fold_left (apply_action req old) acts (Ok old)
  else Err ValidationException).

(** [table.update_item(...)]: one atomic create-or-update of one item. *)
Definition update_item (t : table) (req : update_item_request) : result table :=
  rbind (update_item_on (item_or_new t (Key req)) req) (λ new,
  Ok (<[Key req := new]> t)).

(** *** [write_observation] *)

Section write.
(** [datetime.isoformat], from the Python standard library. *)
Variable isoformat : datetime → string.

Definition pk (agg : AggregatedObservation) : string :=
  "SERVICE#" +:+ service_name agg.

Definition sk (agg : AggregatedObservation) : string :=
  "CALLER#" +:+ caller agg +:+ "#" +:+ method agg +:+ "#" +:+ path_template agg.

(** [int((agg.last_seen + timedelta(days=ttl_days)).timestamp())]: whole
    seconds since the epoch, truncated towards zero. *)
Definition ttl (agg : AggregatedObservation) (ttl_days : Z) : Z :=
  (instant (last_seen agg) + ttl_days * 86400000000) `quot` 1000000.

Definition set_parts : list string :=
  [ "last_seen = :last_seen";
    "first_seen = if_not_exists(first_seen, :first_seen)";
    "#ttl = :ttl" ].

(** The truth value of a Python set: true when it is not empty. *)
Definition truthy (s : gset string) : bool := bool_decide (s ≠ ∅).

(** [if b: parts.append(x)]. *)
Definition append_if {A} (b : bool) (x : A) : list A :=
  if b then [x] else [].

Definition add_parts (agg : AggregatedObservation) : list string :=
  ["call_count :count"]
  ++ append_if (truthy (request_fields agg)) "request_fields :rf"
  ++ append_if (truthy (request_headers agg)) "request_headers :rh"
  ++ append_if (truthy (query_params agg)) "query_params :qp"
  ++ append_if (truthy (response_codes agg)) "response_codes :rc".

(** [if b: attr_values[ref] = s]. *)
Definition store_if (b : bool) (ref : string) (s : gset string)
  (attr_values : gmap string attr) : gmap string attr :=
  if b then <[ref := AttrSS s]> attr_values else attr_values.

Definition attr_values (agg : AggregatedObservation) (ttl_days : Z)
  : gmap string attr :=
  store_if (truthy (response_codes agg)) ":rc" (response_codes agg)
  (store_if (truthy (query_params agg)) ":qp" (query_params agg)
  (store_if (truthy (request_headers agg)) ":rh" (request_headers agg)
  (store_if (truthy (request_fields agg)) ":rf" (request_fields agg)
  (<[":ttl" := AttrN (ttl agg ttl_days)]>
  (<[":first_seen" := AttrS (isoformat (first_seen agg))]>
  (<[":last_seen" := AttrS (isoformat (last_seen agg))]>
  (<[":count" := AttrN (call_count agg)]> ∅))))))).

Definition update_expression (agg : AggregatedObservation) : string :=
  "SET " +:+ String.concat ", " set_parts
  +:+ " ADD " +:+ String.concat ", " (add_parts agg).

(** The arguments of the [table.update_item] call. *)
Definition request (agg : AggregatedObservation) (ttl_days : Z)
  : update_item_request :=
  {| Key := (pk agg, sk agg);
     UpdateExpression := update_expression agg;
     ExpressionAttributeNames := {[ "#ttl" := "ttl" ]};
     ExpressionAttributeValues := attr_values agg ttl_days |}.

Definition write_observation (t : table) (agg : AggregatedObservation)
  (ttl_days : Z) : result table :=
  update_item t (request agg ttl_days).

(** The five effects of an upsert, as the specification words them:
    (a) [last_seen] is overwritten, (b) [first_seen] is set only when absent,
    (c) [call_count] is incremented by the batch's count, (d) each non-empty
    set is united into the stored one and an empty one is left out,
    (e) [ttl] is overwritten. *)
Definition add_number (name : string) (n : Z) (old new : item) : item :=
  <[name := AttrN (match old !! name with Some (AttrN m) => m + n | _ => n end)]>
    new.

Definition add_set (name : string) (s : gset string) (old new : item) : item :=
  <[name := AttrSS (match old !! name with Some (AttrSS s0) => s0 ∪ s | _ => s end)]>
    new.

Definition add_set_if (b : bool) (name : string) (s : gset string)
  (old new : item) : item :=
  if b then add_set name s old new else new.

Definition upsert_effect (old : item) (agg : AggregatedObservation)
  (ttl_days : Z) : item :=
  add_set_if (truthy (response_codes agg)) "response_codes" (response_codes agg) old
  (add_set_if (truthy (query_params agg)) "query_params" (query_params agg) old
  (add_set_if (truthy (request_headers agg)) "request_headers" (request_headers agg) old
  (add_set_if (truthy (request_fields agg)) "request_fields" (request_fields agg) old
  (add_number "call_count" (call_count agg) old
  (<["ttl" := AttrN (ttl agg ttl_days)]>
  (<["first_seen" :=
       default (AttrS (isoformat (first_seen agg))) (old !! "first_seen")]>
  (<["last_seen" := AttrS (isoformat (last_seen agg))]> old))))))).

End write.

(** The stored attribute has the type that the [ADD] action expects. *)
Definition number_or_absent (o : option attr) : Prop :=
  match o with None | Some (AttrN _) => True | Some _ => False end.

Definition set_or_absent (o : option attr) : Prop :=
  match o with None | Some (AttrSS _) => True | Some _ => False end.

Definition well_typed (it : item) : Prop :=
  number_or_absent (it !! "call_count")
  ∧ set_or_absent (it !! "request_fields")
  ∧ set_or_absent (it !! "request_headers")
  ∧ set_or_absent (it !! "query_params")
  ∧ set_or_absent (it !! "response_codes").

(** How a set shows in a record that one write created: as itself, or not
    at all when it is empty. *)
Definition stored_set (s : gset string) : option attr :=
  if truthy s then Some (AttrSS s) else None.

(** The actions of the update expression of [write_observation], by the
    truth values of the four sets. *)
Definition actions (b1 b2 b3 b4 : bool) : list action :=
  [ SetAction "last_seen" (Val ":last_seen");
    SetAction "first_seen" (IfNotExists "first_seen" ":first_seen");
    SetAction "#ttl" (Val ":ttl");
    AddAction "call_count" ":count" ]
  ++ append_if b1 (AddAction "request_fields" ":rf")
  ++ append_if b2 (AddAction "request_headers" ":rh")
  ++ append_if b3 (AddAction "query_params" ":qp")
  ++ append_if b4 (AddAction "response_codes" ":rc").

(** *** The paginated query and [fetch_service_data] *)

(** A partition as the store serves it: its records cut into consecutive
    pages at boundaries of the store's choosing (a page may be empty), and
    the queries that fail, by the index of the page asked for. *)
Record store := Store {
  pages : string → list (list item);
  fault : string → nat → option string
}.

Record query_kwargs := Kwargs {
  KeyConditionExpression : string;      (* [Key("PK").eq(...)] *)
  ExclusiveStartKey : option nat
}.

Record query_response := Response {
  Items : list item;
  LastEvaluatedKey : option nat
}.

(** [table.query] with the keyword arguments [kwargs]: the page after the
    cursor, and a cursor when pages remain. *)
Definition query (st : store) (kwargs : query_kwargs) : result query_response :=
  let part := KeyConditionExpression kwargs in
  let i := default 0%nat (ExclusiveStartKey kwargs) in
  match fault st part i with
  | Some e => Err e
  | None =>
      Ok {| Items := default [] (pages st part !! i);
            LastEvaluatedKey :=
              if bool_decide (S i < length (pages st part))%nat
              then Some (S i) else None |}
  end.

(** The [while True] loop; [None] when [fuel] iterations did not reach the
    [break]. *)
Fixpoint fetch_loop (fuel : nat) (st : store) (kwargs : query_kwargs)
  (items : list item) : option (result (list item)) :=
  match fuel with
  | O => None
  | S fuel =>
      match query st kwargs with
      | Err e => Some (Err e)
      | Ok response =>
          let items := items ++ Items response in
          match LastEvaluatedKey response with
          | None => Some (Ok items)
          | Some last_key =>
              fetch_loop fuel st
                {| KeyConditionExpression := KeyConditionExpression kwargs;
                   ExclusiveStartKey := Some last_key |} items
          end
      end
  end.

Definition fetch_service_data (fuel : nat) (st : store) (service_name : string)
  : option (result (list item)) :=
  fetch_loop fuel st
    {| KeyConditionExpression := "SERVICE#" +:+ service_name;
       ExclusiveStartKey := None |} [].

(** What a read may end with: every page, in order, when no query of the
    pages [from .. ] failed; else the error of the first query that failed. *)
Definition complete_or_failed (st : store) (part : string) (from : nat)
  (acc : list item) (r : result (list item)) : Prop :=
  let last := max (S from) (length (pages st part)) in
  match r with
  | Ok items =>
      items = acc ++ concat (drop from (pages st part))
      ∧ ∀ j, (from ≤ j < last)%nat → fault st part j = None
  | Err e =>
      ∃ j, (from ≤ j < last)%nat ∧ fault st part j = Some e
           ∧ ∀ j', (from ≤ j' < j)%nat → fault st part j' = None
  end.

(** *** [flush_observations] *)

(** Every stored item has the attribute types that the upsert expects. *)
Definition table_well_typed (t : table) : Prop :=
  map_Forall (λ _ it, well_typed it) t.

(** Two records agree on what accumulates: the count and the four sets. *)
Definition same_totals (r r' : item) : Prop :=
  r !! "call_count" = r' !! "call_count"
  ∧ r !! "request_fields" = r' !! "request_fields"
  ∧ r !! "request_headers" = r' !! "request_headers"
  ∧ r !! "query_params" = r' !! "query_params"
  ∧ r !! "response_codes" = r' !! "response_codes".

Section flush.
Variable isoformat : datetime → string.

(** One future of the pool: [write_observation] ran, and [future.result()]
    either returned or raised into [logger.warning]. *)
Definition write_logged (ttl_days : Z) (tw : table * nat)
  (agg : AggregatedObservation) : table * nat :=
  match write_observation isoformat tw.1 agg ttl_days with
  | Ok t' => (t', tw.2)
  | Err _ => (tw.1, S tw.2)
  end.

(** The writes of a flush, taking effect in the order [order]: the pool
    runs them concurrently, and the store applies each update atomically, in
    some order. *)
Definition run_writes (order : list AggregatedObservation) (t : table)
  (ttl_days : Z) : table * nat :=
  fold_left (write_logged ttl_days) order (t, 0%nat).

(** [flush_observations], its writes taking effect in submission order. *)
Definition flush_observations (observations : list Observation) (t : table)
  (ttl_days : Z) : table * nat :=
  let aggregated := Aggregator.aggregate observations in
  match aggregated with
  | [] => (t, 0%nat)
  | _ :: _ => run_writes aggregated t ttl_days
  end.

End flush.

(** [c in s] for a character. *)
Fixpoint mentions (c : ascii) (s : string) : bool :=
  match s with
  | EmptyString => false
  | String c' s' => Ascii.eqb c c' || mentions c s'
  end.

(** The composite key is built with [#] as delimiter: the caller and the
    method must not contain it. *)
Definition delimiter_free (agg : AggregatedObservation) : Prop :=
  mentions "#" (caller agg) = false ∧ mentions "#" (method agg) = false.

(** Stand-ins for the examples: a rendering of instants in place of
    [datetime.isoformat], and a record as the tests build it. *)
Definition isoformat_stub (d : datetime) : string := pretty (instant d).

Definition sample_agg (caller : string) (count : Z) (seen : Z)
  : AggregatedObservation :=
  mkAggregated "my-api" caller "POST" "/api/orders"
    {[ "user_id"; "cart_id" ]} {[ "x-correlation-id" ]} ∅ {[ "200" ]}
    count (Datetime seen 0) (Datetime seen 0).

(** [sub in s] for strings. *)
Fixpoint contains (sub s : string) : bool :=
  String.prefix sub s
  || match s with EmptyString => false | String _ s' => contains sub s' end.

(** The guard of one set: its clause is among the [ADD] parts, and so in
    the update expression, and its value is in the request, exactly when the
    set is not empty. *)
Definition guarded (isoformat : datetime → string)
  (agg : AggregatedObservation) (ttl_days : Z)
  (s : gset string) (clause ref : string) : Prop :=
  (clause ∈ add_parts agg ↔ s ≠ ∅)
  ∧ (contains clause (update_expression agg) = true ↔ s ≠ ∅)
  ∧ attr_values isoformat agg ttl_days !! ref = stored_set s.

End Dynamo.

(** ** capture/buffer.py *)

Module Buffer.

(** Exceptions, by the one distinction [except Exception] makes: instances
    of [Exception], and the others ([KeyboardInterrupt], [SystemExit], ...). *)
Inductive exn : Type :=
| ExceptionE (name : string)
| BaseExceptionE (name : string).

(** What the configured flush function does with a batch: it returns, it
    raises, or it never returns. *)
Inductive fn_outcome : Type :=
| Returns
| Raises (e : exn)
| Sleeps.

(** The constructor's arguments. *)
Record config := Config {
  _flush_fn : list Observation → fn_outcome;
  max_size : Z;
  flush_interval : Z
}.

(** The object's fields, with the part of the world that its methods touch:
    the monotonic clock, the calls made to [_flush_fn], the warnings logged
    and the daemon threads started (each by the batch it was given). *)
Record state := State {
  _observations : list Observation;
  _last_flush : Z;
  _lock : bool;
  clock : Z;
  calls : list (list Observation);
  warnings : nat;
  threads : list (list Observation)
}.

Definition set_observations (l : list Observation) (s : state) : state :=
  State l (_last_flush s) (_lock s) (clock s) (calls s) (warnings s) (threads s).
Definition set_last_flush (t : Z) (s : state) : state :=
  State (_observations s) t (_lock s) (clock s) (calls s) (warnings s) (threads s).
Definition set_lock (b : bool) (s : state) : state :=
  State (_observations s) (_last_flush s) b (clock s) (calls s) (warnings s)
    (threads s).
Definition set_clock (t : Z) (s : state) : state :=
  State (_observations s) (_last_flush s) (_lock s) t (calls s) (warnings s)
    (threads s).
Definition add_call (batch : list Observation) (s : state) : state :=
  State (_observations s) (_last_flush s) (_lock s) (clock s)
    (calls s ++ [batch]) (warnings s) (threads s).
Definition add_warning (s : state) : state :=
  State (_observations s) (_last_flush s) (_lock s) (clock s) (calls s)
    (S (warnings s)) (threads s).
Definition add_thread (batch : list Observation) (s : state) : state :=
  State (_observations s) (_last_flush s) (_lock s) (clock s) (calls s)
    (warnings s) (threads s ++ [batch]).

(** [__init__], at clock reading [now]. *)
Definition init (now : Z) : state :=
  State [] now false now [] 0 [].

(** *** The methods, one caller at a time *)

(** A call returns, raises, or never returns (it waits for the lock, or for
    a flush function that sleeps). *)
Inductive outcome (A : Type) : Type :=
| Return (a : A) (s : state)
| Raise (e : exn) (s : state)
| Hang (s : state).
Arguments Return {A} a s.
Arguments Raise {A} e s.
Arguments Hang {A} s.

Definition M (A : Type) : Type := state → outcome A.

Definition ret {A} (a : A) : M A := λ s, Return a s.

Definition bind {A B} (m : M A) (f : A → M B) : M B := λ s,
  match m s with
  | Return a s' => f a s'
  | Raise e s' => Raise e s'
  | Hang s' => Hang s'
  end.

Notation "'let*' x ':=' m 'in' k" := (bind m (λ x, k))
  (at level 10, x name, m at level 100, k at level 200).

Definition modify (f : state → state) : M unit := λ s, Return tt (f s).
Definition gets {A} (f : state → A) : M A := λ s, Return (f s) s.

(** [try: m except Exception: handler]. *)
Definition try_except_Exception {A} (m handler : M A) : M A := λ s,
  match m s with
  | Raise (ExceptionE _) s' => handler s'
  | r => r
  end.

(** [with self._lock: body]: wait for the lock, run [body], release the lock
    on the way out, also when [body] raises. *)
Definition with_lock {A} (body : M A) : M A := λ s,
  if _lock s then Hang s
  else match body (set_lock true s) with
       | Return a s' => Return a (set_lock false s')
       | Raise e s' => Raise e (set_lock false s')
       | Hang s' => Hang s'
       end.

Definition time_monotonic : M Z := gets clock.

Definition call_flush_fn (cfg : config) (batch : list Observation) : M unit :=
  λ s,
  match _flush_fn cfg batch with
  | Returns => Return tt (add_call batch s)
  | Raises e => Raise e (add_call batch s)
  | Sleeps => Hang (add_call batch s)
  end.

Definition _should_flush (cfg : config) : M bool :=
  let* observations := gets _observations in
  if bool_decide (Z.of_nat (length observations) >= max_size cfg)
  then ret true
  else
    let* now := time_monotonic in
    let* last_flush := gets _last_flush in
    ret (bool_decide (now - last_flush >= flush_interval cfg)).

Definition _drain : M (list Observation) :=
  let* batch := gets _observations in
  let* _ := modify (set_observations []) in
  let* now := time_monotonic in
  let* _ := modify (set_last_flush now) in
  ret batch.

Definition _safe_flush (cfg : config) (batch : list Observation) : M unit :=
  try_except_Exception (call_flush_fn cfg batch) (modify add_warning).

(** [if batch:] a list is true when it is not empty. *)
Definition nonempty (batch : list Observation) : bool :=
  match batch with [] => false | _ :: _ => true end.

Definition _flush_async (cfg : config) : M unit :=
  let* batch := _drain in
  if nonempty batch then modify (add_thread batch) else ret tt.

Definition _flush_sync (cfg : config) : M unit :=
  let* batch := _drain in
  if nonempty batch then _safe_flush cfg batch else ret tt.

Definition add (cfg : config) (obs : Observation) : M unit :=
  with_lock (
    let* _ := modify (λ s, set_observations (_observations s ++ [obs]) s) in
    let* b := _should_flush cfg in
    if b then _flush_async cfg else ret tt).

Definition flush (cfg : config) : M unit :=
  with_lock (_flush_sync cfg).

(** What can happen to a buffer, one thing after the other: a call of a
    public method, the clock moving on, a started thread running its target
    [_safe_flush(batch)]. *)
Inductive event : Type :=
| CallAdd (obs : Observation)
| CallFlush
| Tick (d : Z)
| RunThread (batch : list Observation).

Definition run_event (cfg : config) (ev : event) : M unit :=
  match ev with
  | CallAdd obs => add cfg obs
  | CallFlush => flush cfg
  | Tick d => modify (λ s, set_clock (clock s + Z.max 0 d) s)
  | RunThread batch => _safe_flush cfg batch
  end.

Fixpoint run_events (cfg : config) (evs : list event) : M unit :=
  match evs with
  | [] => ret tt
  | ev :: evs => let* _ := run_event cfg ev in run_events cfg evs
  end.

(** A flush function that fails on every call, with an [Exception]. *)
Definition raises_always (cfg : config) : Prop :=
  ∀ batch, ∃ name, _flush_fn cfg batch = Raises (ExceptionE name).

(** *** The methods, under concurrent callers *)

(** Where a thread stands: the statement it executes next.  Line numbers
    are those of [buffer.py]. *)
Inductive pc : Type :=
(* add(obs) *)
| AddAcquire (obs : Observation)        (* 28  with self._lock: *)
| AddAppend (obs : Observation)         (* 29  self._observations.append(obs) *)
| AddCheck                              (* 30  if self._should_flush(): *)
| AddCopy                               (* 55  batch = self._observations[:] *)
| AddClear (batch : list Observation)   (* 56  self._observations = [] *)
| AddStamp (batch : list Observation)   (* 57  self._last_flush = time.monotonic() *)
| AddStart (batch : list Observation)   (* 46  if batch: Thread(...).start() *)
| AddRelease                            (* 28  leaving the with block *)
(* flush() *)
| FlushAcquire                          (* 35  with self._lock: *)
| FlushCopy                             (* 55 *)
| FlushClear (batch : list Observation) (* 56 *)
| FlushStamp (batch : list Observation) (* 57 *)
| FlushInvoke (batch : list Observation)(* 51  if batch: ... 62 self._flush_fn(batch) *)
| FlushAwait (batch : list Observation) (* 62  inside self._flush_fn(batch) *)
| FlushWarn                             (* 64  logger.warning(...) *)
| FlushRelease                          (* 35  leaving the with block *)
| FlushReleaseRaise (e : exn)           (* 35  leaving it with an exception *)
(* a daemon thread: _safe_flush(batch) *)
| BgInvoke (batch : list Observation)   (* 62 *)
| BgAwait (batch : list Observation)    (* 62  inside self._flush_fn(batch) *)
| BgWarn                                (* 64 *)
(* the call or the thread is over *)
| Finished
| Failed (e : exn).

(** One statement of one thread: the thread's next position, the new state,
    the threads it started.  [None]: the thread cannot move (it waits for
    the lock, its flush function sleeps, or it is over). *)
Definition tstep (cfg : config) (p : pc) (s : state)
  : option (pc * state * list pc) :=
  match p with
  | AddAcquire obs =>
      if _lock s then None else Some (AddAppend obs, set_lock true s, [])
  | AddAppend obs =>
      Some (AddCheck, set_observations (_observations s ++ [obs]) s, [])
  | AddCheck =>
      if bool_decide (Z.of_nat (length (_observations s)) >= max_size cfg)
         || bool_decide (clock s - _last_flush s >= flush_interval cfg)
      then Some (AddCopy, s, []) else Some (AddRelease, s, [])
  | AddCopy => Some (AddClear (_observations s), s, [])
  | AddClear batch => Some (AddStamp batch, set_observations [] s, [])
  | AddStamp batch => Some (AddStart batch, set_last_flush (clock s) s, [])
  | AddStart batch =>
      if nonempty batch
      then Some (AddRelease, add_thread batch s, [BgInvoke batch])
      else Some (AddRelease, s, [])
  | AddRelease => Some (Finished, set_lock false s, [])
  | FlushAcquire =>
      if _lock s then None else Some (FlushCopy, set_lock true s, [])
  | FlushCopy => Some (FlushClear (_observations s), s, [])
  | FlushClear batch => Some (FlushStamp batch, set_observations [] s, [])
  | FlushStamp batch => Some (FlushInvoke batch, set_last_flush (clock s) s, [])
  | FlushInvoke batch =>
      if nonempty batch
      then Some (FlushAwait batch, add_call batch s, [])
      else Some (FlushRelease, s, [])
  | FlushAwait batch =>
      match _flush_fn cfg batch with
      | Returns => Some (FlushRelease, s, [])
      | Raises (ExceptionE _) => Some (FlushWarn, s, [])
      | Raises e => Some (FlushReleaseRaise e, s, [])
      | Sleeps => None
      end
  | FlushWarn => Some (FlushRelease, add_warning s, [])
  | FlushRelease => Some (Finished, set_lock false s, [])
  | FlushReleaseRaise e => Some (Failed e, set_lock false s, [])
  | BgInvoke batch => Some (BgAwait batch, add_call batch s, [])
  | BgAwait batch =>
      match _flush_fn cfg batch with
      | Returns => Some (Finished, s, [])
      | Raises (ExceptionE _) => Some (BgWarn, s, [])
      | Raises e => Some (Failed e, s, [])
      | Sleeps => None
      end
  | BgWarn => Some (Finished, add_warning s, [])
  | Finished | Failed _ => None
  end.

(** A thread running on its own for [fuel] statements: where it stands
    then, the state, and the threads it started. *)
Fixpoint run_solo (fuel : nat) (cfg : config) (p : pc) (s : state)
  (spawned : list pc) : pc * state * list pc :=
  match fuel with
  | O => (p, s, spawned)
  | S fuel =>
      match tstep cfg p s with
      | None => (p, s, spawned)
      | Some (p', s', sp) => run_solo fuel cfg p' s' (spawned ++ sp)
      end
  end.

(** The threads of the process, the buffer they share, and the record of
    the observations that [add] was called with. *)
Record system := System {
  mem : state;
  pool : list pc;
  added : list Observation
}.

(** Any thread may make the next move; callers may arrive at any moment;
    the clock moves on. *)
Inductive step (cfg : config) : system → system → Prop :=
| step_thread c i p p' s' spawned :
    pool c !! i = Some p →
    tstep cfg p (mem c) = Some (p', s', spawned) →
    step cfg c (System s' (<[i := p']> (pool c) ++ spawned) (added c))
| step_call_add c obs :
    step cfg c (System (mem c) (pool c ++ [AddAcquire obs]) (added c ++ [obs]))
| step_call_flush c :
    step cfg c (System (mem c) (pool c ++ [FlushAcquire]) (added c))
| step_tick c d :
    0 <= d →
    step cfg c (System (set_clock (clock (mem c) + d) (mem c)) (pool c) (added c)).

(** The moves that are no call of [add] or [flush]. *)
Inductive env_step (cfg : config) : system → system → Prop :=
| env_thread c i p p' s' spawned :
    pool c !! i = Some p →
    tstep cfg p (mem c) = Some (p', s', spawned) →
    env_step cfg c (System s' (<[i := p']> (pool c) ++ spawned) (added c))
| env_tick c d :
    0 <= d →
    env_step cfg c (System (set_clock (clock (mem c) + d) (mem c)) (pool c) (added c)).

Definition start (now : Z) : system := System (init now) [] [].

Definition reachable (cfg : config) (c : system) : Prop :=
  ∃ now, rtc (step cfg) (start now) c.

(** The thread holds the lock. *)
Definition critical (p : pc) : bool :=
  match p with
  | AddAppend _ | AddCheck | AddCopy | AddClear _ | AddStamp _ | AddStart _
  | AddRelease
  | FlushCopy | FlushClear _ | FlushStamp _ | FlushInvoke _ | FlushAwait _
  | FlushWarn | FlushRelease | FlushReleaseRaise _ => true
  | _ => false
  end.

(** The thread executes a call of [add] or [flush]. *)
Definition in_call (p : pc) : bool :=
  match p with
  | BgInvoke _ | BgAwait _ | BgWarn | Finished | Failed _ => false
  | _ => true
  end.

Definition over (p : pc) : bool :=
  match p with Finished | Failed _ => true | _ => false end.

(** The observations that a thread alone is answerable for: the one it has
    yet to append, the batch it has taken out of the buffer and not yet
    passed to the flush function. *)
Definition holds (p : pc) : list Observation :=
  match p with
  | AddAcquire obs | AddAppend obs => [obs]
  | AddStamp batch | AddStart batch
  | FlushStamp batch | FlushInvoke batch
  | BgInvoke batch => batch
  | _ => []
  end.

Definition in_flight (c : system) : list Observation :=
  concat (holds <$> pool c).

(** The observations passed to the flush function so far. *)
Definition delivered (c : system) : list Observation :=
  concat (calls (mem c)).

(** No call is under way and no started thread has yet to run. *)
Definition quiescent (c : system) : Prop :=
  Forall (λ p, over p = true) (pool c).

(** The claim that every observation handed to [add] has been passed to
    the flush function once all calls and threads are over. *)
Definition all_delivered (cfg : config) (c : system) : Prop :=
  reachable cfg c → quiescent c → delivered c ≡ₚ added c.

(** The claim that a call of [add] that has begun can always come to its
    end, whatever the flush function does. *)
Definition add_can_return (cfg : config) (c : system) (i : nat) : Prop :=
  ∀ obs, pool c !! i = Some (AddAcquire obs) →
         ∃ c', rtc (step cfg) c c' ∧ pool c' !! i = Some Finished.

(** No call of [add] or [flush] is under way. *)
Definition idle (c : system) : Prop :=
  Forall (λ p, in_call p = false) (pool c).

(** The constructor's defaults: [max_size=100], [flush_interval=30.0], the
    clock counting seconds. *)
Definition defaults (flush_fn : list Observation → fn_outcome) : config :=
  Config flush_fn 100 30.

(** An observation as the tests build it, by caller and capture time. *)
Definition sample (caller : string) (t : Z) : Observation :=
  mkObservation "my-api" caller "POST" "/api/orders" ∅ ∅ ∅ 200 (Datetime t 0).

(** After one call of [add] on a new buffer, at clock reading 0. *)
Definition after_one_add : system :=
  System (State [sample "checkout" 0] 0 false 0 [] 0 [])
    [Finished] [sample "checkout" 0].

(** A call of [flush] inside a flush function that sleeps, and a call of
    [add] that began after it. *)
Definition flush_asleep : system :=
  System (State [] 0 true 0 [[sample "checkout" 0]] 0 [])
    [Finished; FlushAwait [sample "checkout" 0]; AddAcquire (sample "mobile" 1)]
    [sample "checkout" 0; sample "mobile" 1].

(** A copy of the buffer taken under the lock is still the buffer. *)
Definition copy_ok (s : state) (p : pc) : Prop :=
  match p with
  | AddClear batch | FlushClear batch => batch = _observations s
  | _ => True
  end.

(** The invariant of the system: the lock is held by exactly the threads
    inside a [with] block, of which there is at most one; copies are exact;
    and every observation handed to [add] is in exactly one place. *)
Definition holders (l : list pc) : nat :=
  length (filter (λ p, critical p = true) l).

Definition invariant (c : system) : Prop :=
  holders (pool c) = (if _lock (mem c) then 1%nat else 0%nat)
  ∧ Forall (copy_ok (mem c)) (pool c)
  ∧ added c ≡ₚ in_flight c ++ _observations (mem c) ++ delivered c.

End Buffer.

(** ** generation/transformer.py *)

Module Transformer.

(** [s.split(sep, maxsplit)] for a one-character separator: cut at the
    first [maxsplit] occurrences. *)
Fixpoint split_char (sep : ascii) (maxsplit : nat) (cur s : string)
  : list string :=
  match s with
  | EmptyString => [cur]
  | String c s' =>
      match maxsplit with
      | S n =>
          if Ascii.eqb c sep then cur :: split_char sep n "" s'
          else split_char sep maxsplit (cur +:+ String c "") s'
      | O => split_char sep maxsplit (cur +:+ String c "") s'
      end
  end.

(** Lines 10-14 of [transform_items]: the sort key cut into caller, method
    and path; [None] where the loop [continue]s. *)
Definition parse_sk (SK : string) : option (string * string * string) :=
  match split_char "#" 3 "" SK with
  | [_; caller; method; path] => Some (caller, method, path)
  | _ => None
  end.

Definition endpoint_key (method path : string) : string :=
  method +:+ " " +:+ path.

End Transformer.

(** ** capture/extractor.py *)

Module Extractor.

(** [s.split(sep)] for a one-character separator. *)
Fixpoint split_all (sep : ascii) (cur s : string) : list string :=
  match s with
  | EmptyString => [cur]
  | String c s' =>
      if Ascii.eqb c sep then cur :: split_all sep "" s'
      else split_all sep (cur +:+ String c "") s'
  end.

(** One turn of the loop of [extract_query_params]. *)
Definition add_param (params : gset string) (part : string) : gset string :=
  let key := hd "" (Transformer.split_char "=" 1 "" part) in
  if String.eqb key "" then params else params ∪ {[ key ]}.

Definition extract_query_params (query_string : string) : gset string :=
  if String.eqb query_string "" then ∅
  else fold_left add_param (split_all "&" "" query_string) ∅.

(** A query parameter as a client writes it: [key] or [key=value]. *)
Definition render_param (p : string * option string) : string :=
  match p.2 with
  | None => p.1
  | Some v => p.1 +:+ "=" +:+ v
  end.

(** A parameter that survives the trip: its key is not empty and has no
    [&] and no [=], its value has no [&]. *)
Definition plain_param (p : string * option string) : Prop :=
  p.1 ≠ ""
  ∧ Dynamo.mentions "&" p.1 = false
  ∧ Dynamo.mentions "=" p.1 = false
  ∧ match p.2 with None => True | Some v => Dynamo.mentions "&" v = false end.

(** A parsed JSON document. *)
Inductive json : Type :=
| JNull
| JBool (b : bool)
| JNumber (n : Z)          (* the code never looks at a number's value *)
| JString (s : string)
| JArray (items : list json)
| JObject (members : list (string * json)).

(** [extract_fields(data, max_depth, _depth, _prefix)], [data] given by the
    members of the object; a value that is no object has no fields. *)
Fixpoint fields_of (value : json) (max_depth _depth : Z) (_prefix : string)
  {struct value} : gset string :=
  match value with
  | JObject members =>
      (fix over_members (members : list (string * json)) : gset string :=
         match members with
         | [] => ∅
         | (key, value) :: rest =>
             let field_name := _prefix +:+ key in
             {[ field_name ]}
             ∪ (if bool_decide (_depth < max_depth)
                then
                  match value with
                  | JObject _ =>
                      fields_of value max_depth (_depth + 1) (field_name +:+ ".")
                  | JArray items =>
                      (fix over_items (items : list json) : gset string :=
                         match items with
                         | [] => ∅
                         | item :: items' =>
                             match item with
                             | JObject _ =>
                                 fields_of item max_depth (_depth + 1)
                                   (field_name +:+ "[].")
                             | _ => ∅
                             end
                             ∪ over_items items'
                         end) items
                  | _ => ∅
                  end
                else ∅)
             ∪ over_members rest
         end) members
  | _ => ∅
  end.

Definition extract_fields (data : list (string * json)) (max_depth : Z)
  : gset string :=
  fields_of (JObject data) max_depth 1 "".

(** The two inner loops of [extract_fields], named: the fields under one
    value, and the fields of one member. *)
Definition item_fields (max_depth _depth : Z) (field_name : string)
  (item : json) : gset string :=
  match item with
  | JObject _ => fields_of item max_depth (_depth + 1) (field_name +:+ "[].")
  | _ => ∅
  end.

Definition nested_fields (max_depth _depth : Z) (field_name : string)
  (value : json) : gset string :=
  match value with
  | JObject _ => fields_of value max_depth (_depth + 1) (field_name +:+ ".")
  | JArray items => ⋃ (item_fields max_depth _depth field_name <$> items)
  | _ => ∅
  end.

Definition member_fields (max_depth _depth : Z) (_prefix : string)
  (member : string * json) : gset string :=
  {[ _prefix +:+ member.1 ]}
  ∪ (if bool_decide (_depth < max_depth)
     then nested_fields max_depth _depth (_prefix +:+ member.1) member.2
     else ∅).

(** The document with every scalar value blanked: what is left is its
    shape, the names and the nesting. *)
Fixpoint shape (value : json) : json :=
  match value with
  | JArray items => JArray (shape <$> items)
  | JObject members => JObject (prod_map id shape <$> members)
  | _ => JNull
  end.

End Extractor.

(** * Properties *)

Module AggregatorFacts.
Import Aggregator.

Lemma getitem_setitem_eq k agg groups :
  getitem k (setitem k agg groups) = Some agg.
Proof.
  induction groups as [|[k' a'] rest IH]; simpl.
  - by rewrite decide_True.
  - destruct (decide (k = k')) as [->|Hne]; simpl.
    + by rewrite decide_True.
    + by rewrite decide_False.
Qed.

Lemma getitem_setitem_ne k k' agg groups :
  k ≠ k' → getitem k' (setitem k agg groups) = getitem k' groups.
Proof.
  intros Hne. induction groups as [|[k0 a0] rest IH]; simpl.
  - by rewrite decide_False.
  - destruct (decide (k = k0)) as [->|Hne0]; simpl.
    + by rewrite !decide_False.
    + by rewrite IH.
Qed.

Lemma getitem_None k (groups : groups_t) :
  getitem k groups = None ↔ k ∉ groups.*1.
Proof.
  induction groups as [|[k' a'] rest IH]; simpl.
  - split; [intros _; apply not_elem_of_nil | done].
  - rewrite not_elem_of_cons. destruct (decide (k = k')) as [->|Hne].
    + split; [done | by intros [? _]].
    + rewrite IH. tauto.
Qed.

Lemma setitem_keys k agg (groups : groups_t) :
  (setitem k agg groups).*1 =
    match getitem k groups with
    | None => groups.*1 ++ [k]
    | Some _ => groups.*1
    end.
Proof.
  induction groups as [|[k' a'] rest IH]; csimpl; [done|].
  destruct (decide (k = k')) as [->|Hne]; csimpl; [done|].
  rewrite IH. by destruct (getitem k rest).
Qed.

Lemma setitem_wf k agg groups :
  agg_key agg = k → wf groups → wf (setitem k agg groups).
Proof.
  intros Hk [Hnd Hall]. split.
  - rewrite setitem_keys. destruct (getitem k groups) eqn:Hg; [done|].
    apply NoDup_app. split_and!; [done| |apply NoDup_singleton].
    intros x Hx ->%list_elem_of_singleton. by apply getitem_None in Hg.
  - clear Hnd. induction groups as [|[k' a'] rest IH]; simpl.
    + by constructor.
    + inversion_clear Hall. destruct (decide (k = k')); constructor; auto.
Qed.

Lemma getitem_Some_elem k agg (groups : groups_t) :
  getitem k groups = Some agg → (k, agg) ∈ groups.
Proof.
  induction groups as [|[k' a'] rest IH]; simpl; [done|].
  destruct (decide (k = k')) as [->|Hne].
  - intros [= ->]. left.
  - intros. right. auto.
Qed.

Lemma elem_getitem k agg (groups : groups_t) :
  NoDup groups.*1 → (k, agg) ∈ groups → getitem k groups = Some agg.
Proof.
  induction groups as [|[k' a'] rest IH]; simpl.
  - intros _ []%elem_of_nil.
  - intros [Hnotin Hnd]%NoDup_cons [Heq|Hin]%elem_of_cons.
    + simplify_eq. by rewrite decide_True.
    + rewrite decide_False; [auto|]. intros ->. apply Hnotin.
      apply list_elem_of_fmap. by exists (k', agg).
Qed.

Lemma step_wf groups obs : wf groups → wf (step groups obs).
Proof.
  intros Hwf. unfold step.
  destruct (getitem (obs_key obs) groups) as [agg|] eqn:Hg.
  - apply setitem_wf; [|done].
    apply getitem_Some_elem in Hg. destruct Hwf as [_ Hall].
    rewrite Forall_forall in Hall. by apply Hall in Hg.
  - by apply setitem_wf.
Qed.

Lemma aggregate_from_wf groups observations :
  wf groups → wf (aggregate_from groups observations).
Proof.
  revert groups. induction observations as [|obs l IH]; intros g Hwf; [done|].
  apply IH, step_wf, Hwf.
Qed.

Lemma wf_nil : wf [].
Proof. split; [apply NoDup_nil_2 | constructor]. Qed.

Lemma getitem_step k groups obs :
  getitem k (step groups obs) =
    if decide (obs_key obs = k) then absorb (getitem k groups) obs
    else getitem k groups.
Proof.
  unfold step, absorb. case_decide as Hk.
  - subst k. destruct (getitem _ groups); by rewrite getitem_setitem_eq.
  - destruct (getitem (obs_key obs) groups); by rewrite getitem_setitem_ne.
Qed.

Lemma getitem_aggregate_from k groups observations :
  getitem k (aggregate_from groups observations)
  = summary (getitem k groups) (with_key k observations).
Proof.
  revert groups. induction observations as [|obs l IH]; intros g; [done|].
  unfold aggregate_from, with_key in *. simpl. rewrite IH, getitem_step.
  rewrite filter_cons. by case_decide.
Qed.

Lemma summary_Some agg l : summary (Some agg) l = Some (fold_left merge l agg).
Proof. revert agg. induction l as [|obs l IH]; intros agg; [done|]. apply IH. Qed.

Lemma summary_None l :
  summary None l =
    match l with [] => None | obs :: l' => Some (fold_left merge l' (fresh obs)) end.
Proof. destruct l as [|obs l]; [done|]. apply summary_Some. Qed.

Lemma fold_merge_key l agg : agg_key (fold_left merge l agg) = agg_key agg.
Proof. revert agg. induction l as [|obs l IH]; intros agg; [done|]. simpl. by rewrite IH. Qed.

Lemma fold_merge_request_fields l agg :
  request_fields (fold_left merge l agg)
  = request_fields agg ∪ ⋃ (o_request_fields <$> l).
Proof.
  revert agg. induction l as [|obs l IH]; intros agg; simpl.
  - set_solver.
  - rewrite IH. simpl. set_solver.
Qed.

Lemma fold_merge_request_headers l agg :
  request_headers (fold_left merge l agg)
  = request_headers agg ∪ ⋃ (o_request_headers <$> l).
Proof.
  revert agg. induction l as [|obs l IH]; intros agg; simpl.
  - set_solver.
  - rewrite IH. simpl. set_solver.
Qed.

Lemma fold_merge_query_params l agg :
  query_params (fold_left merge l agg)
  = query_params agg ∪ ⋃ (o_query_params <$> l).
Proof.
  revert agg. induction l as [|obs l IH]; intros agg; simpl.
  - set_solver.
  - rewrite IH. simpl. set_solver.
Qed.

Lemma fold_merge_response_codes l agg :
  response_codes (fold_left merge l agg) = response_codes agg ∪ codes l.
Proof.
  unfold codes. revert agg. induction l as [|obs l IH]; intros agg; simpl.
  - set_solver.
  - rewrite IH. simpl. set_solver.
Qed.

Lemma fold_merge_call_count l agg :
  call_count (fold_left merge l agg) = call_count agg + Z.of_nat (length l).
Proof.
  revert agg. induction l as [|obs l IH]; intros agg; simpl length.
  - simpl. lia.
  - simpl fold_left. rewrite IH. simpl. lia.
Qed.

(** The attributes of the record of one key, as functions of the
    observations that carry the key. *)
Lemma summary_request_fields l :
  set_of request_fields (summary None l) = ⋃ (o_request_fields <$> l).
Proof.
  rewrite summary_None. destruct l as [|obs l]; [done|].
  simpl. by rewrite fold_merge_request_fields.
Qed.

Lemma summary_request_headers l :
  set_of request_headers (summary None l) = ⋃ (o_request_headers <$> l).
Proof.
  rewrite summary_None. destruct l as [|obs l]; [done|].
  simpl. by rewrite fold_merge_request_headers.
Qed.

Lemma summary_query_params l :
  set_of query_params (summary None l) = ⋃ (o_query_params <$> l).
Proof.
  rewrite summary_None. destruct l as [|obs l]; [done|].
  simpl. by rewrite fold_merge_query_params.
Qed.

Lemma summary_response_codes l :
  set_of response_codes (summary None l) = codes l.
Proof.
  rewrite summary_None. destruct l as [|obs l]; [done|].
  simpl. rewrite fold_merge_response_codes. unfold codes. simpl. set_solver.
Qed.

Lemma summary_call_count l :
  count_of (summary None l) = Z.of_nat (length l).
Proof.
  rewrite summary_None. destruct l as [|obs l]; [done|].
  simpl count_of. rewrite fold_merge_call_count. simpl. lia.
Qed.

Lemma summary_is_Some l : is_Some (summary None l) ↔ l ≠ [].
Proof.
  rewrite summary_None. by destruct l.
Qed.

(** Membership in the result is a lookup by the record's own key. *)
Lemma elem_of_aggregate agg l :
  agg ∈ aggregate l ↔ getitem (agg_key agg) (aggregate_from [] l) = Some agg.
Proof.
  pose proof (aggregate_from_wf [] l wf_nil) as [Hnd Hall].
  unfold aggregate, values. split.
  - intros ([k a] & -> & Hin)%list_elem_of_fmap. simpl.
    rewrite Forall_forall in Hall. pose proof (Hall _ Hin) as Hk. simpl in Hk.
    rewrite Hk. by apply elem_getitem.
  - intros Hg%getitem_Some_elem. apply list_elem_of_fmap.
    by exists (agg_key agg, agg).
Qed.

Lemma aggregate_keys l : agg_key <$> aggregate l = (aggregate_from [] l).*1.
Proof.
  pose proof (aggregate_from_wf [] l wf_nil) as [_ Hall].
  unfold aggregate, values. induction Hall as [|[k a] g Hk _ IH]; [done|].
  csimpl. simpl in Hk. by rewrite Hk, IH.
Qed.

Lemma with_key_nonempty k l : with_key k l ≠ [] ↔ k ∈ obs_key <$> l.
Proof.
  unfold with_key. rewrite list_elem_of_fmap. split.
  - intros Hne. destruct (filter _ l) as [|obs l'] eqn:Hf; [done|].
    assert (obs ∈ filter (λ obs, obs_key obs = k) l) as Hin by (rewrite Hf; left).
    apply list_elem_of_filter in Hin as [Hk Hin]. eauto.
  - intros (obs & -> & Hin) Hnil.
    assert (obs ∈ filter (λ o, obs_key o = obs_key obs) l) as Hin'
      by (by apply list_elem_of_filter).
    rewrite Hnil in Hin'. by apply elem_of_nil in Hin'.
Qed.

(** *** The seen-interval *)

Lemma keeps_earliest_snoc d ts t :
  keeps_earliest d ts →
  keeps_earliest (if dt_lt t d then t else d) (ts ++ [t]).
Proof.
  intros (pre & post & -> & Hpre & Hpost). unfold dt_lt. case_bool_decide as Hlt.
  - exists (pre ++ d :: post), []. split_and!; [done| |constructor].
    apply Forall_app. split.
    + eapply Forall_impl; [exact Hpre|]. simpl. lia.
    + constructor; [done|]. eapply Forall_impl; [exact Hpost|]. simpl. lia.
  - exists pre, (post ++ [t]). split_and!; [by rewrite <-app_assoc|done|].
    apply Forall_app. split; [done|]. constructor; [lia|constructor].
Qed.

Lemma keeps_latest_snoc d ts t :
  keeps_latest d ts →
  keeps_latest (if dt_gt t d then t else d) (ts ++ [t]).
Proof.
  intros (pre & post & -> & Hpre & Hpost). unfold dt_gt. case_bool_decide as Hgt.
  - exists (pre ++ d :: post), []. split_and!; [done| |constructor].
    apply Forall_app. split.
    + eapply Forall_impl; [exact Hpre|]. simpl. lia.
    + constructor; [lia|]. eapply Forall_impl; [exact Hpost|]. simpl. lia.
  - exists pre, (post ++ [t]). split_and!; [by rewrite <-app_assoc|done|].
    apply Forall_app. split; [done|]. constructor; [lia|constructor].
Qed.

Lemma fold_merge_first_seen l obs :
  keeps_earliest (first_seen (fold_left merge l (fresh obs)))
    (o_timestamp <$> obs :: l).
Proof.
  induction l as [|o l IH] using rev_ind.
  - exists [], []. by split_and!; [|constructor|constructor].
  - rewrite fold_left_app, app_comm_cons, fmap_app.
    exact (keeps_earliest_snoc _ _ (o_timestamp o) IH).
Qed.

Lemma fold_merge_last_seen l obs :
  keeps_latest (last_seen (fold_left merge l (fresh obs)))
    (o_timestamp <$> obs :: l).
Proof.
  induction l as [|o l IH] using rev_ind.
  - exists [], []. by split_and!; [|constructor|constructor].
  - rewrite fold_left_app, app_comm_cons, fmap_app.
    exact (keeps_latest_snoc _ _ (o_timestamp o) IH).
Qed.

Lemma keeps_earliest_minimum d (l : list Observation) :
  keeps_earliest d (o_timestamp <$> l) → is_minimum (instant d) (instants l).
Proof.
  intros (pre & post & Heq & Hpre & Hpost). unfold is_minimum, instants.
  replace ((λ obs, instant (o_timestamp obs)) <$> l)
    with (instant <$> (o_timestamp <$> l))
    by (rewrite <-list_fmap_compose; done).
  rewrite Heq, fmap_app, fmap_cons. split.
  - apply elem_of_app. right. left.
  - apply Forall_app. split; [|constructor; [lia|]]; apply Forall_fmap.
    + eapply Forall_impl; [exact Hpre|]. simpl. lia.
    + done.
Qed.

Lemma keeps_latest_maximum d (l : list Observation) :
  keeps_latest d (o_timestamp <$> l) → is_maximum (instant d) (instants l).
Proof.
  intros (pre & post & Heq & Hpre & Hpost). unfold is_maximum, instants.
  replace ((λ obs, instant (o_timestamp obs)) <$> l)
    with (instant <$> (o_timestamp <$> l))
    by (rewrite <-list_fmap_compose; done).
  rewrite Heq, fmap_app, fmap_cons. split.
  - apply elem_of_app. right. left.
  - apply Forall_app. split; [|constructor; [lia|]]; apply Forall_fmap.
    + eapply Forall_impl; [exact Hpre|]. simpl. lia.
    + done.
Qed.

Lemma is_minimum_perm m zs zs' : zs ≡ₚ zs' → is_minimum m zs → is_minimum m zs'.
Proof. intros Hp [Hin Hall]. split; by rewrite <-Hp. Qed.

Lemma is_maximum_perm m zs zs' : zs ≡ₚ zs' → is_maximum m zs → is_maximum m zs'.
Proof. intros Hp [Hin Hall]. split; by rewrite <-Hp. Qed.

Lemma instants_with_key_perm k l l' :
  l ≡ₚ l' → instants (with_key k l) ≡ₚ instants (with_key k l').
Proof. intros Hp. unfold instants, with_key. by rewrite Hp. Qed.

(** *** The claims about [aggregate] *)

(** C1. [aggregate] returns exactly one record per distinct key of the batch
    (the keys of the result are pairwise different and are exactly the keys
    that occur in the batch); in each record the three name sets are the
    unions of the sets of the observations with that key, [response_codes]
    is the set of their stringified status codes, and [call_count] is their
    number; and [aggregate []] is [[]]. *)
Theorem aggregate_one_record_per_key (observations : list Observation) :
  aggregate [] = []
  ∧ NoDup (agg_key <$> aggregate observations)
  ∧ (∀ k, k ∈ agg_key <$> aggregate observations ↔ k ∈ obs_key <$> observations)
  ∧ (∀ agg, agg ∈ aggregate observations →
       let group := with_key (agg_key agg) observations in
       request_fields agg = ⋃ (o_request_fields <$> group)
       ∧ request_headers agg = ⋃ (o_request_headers <$> group)
       ∧ query_params agg = ⋃ (o_query_params <$> group)
       ∧ response_codes agg = codes group
       ∧ call_count agg = Z.of_nat (length group)).
Proof.
  split_and!.
  - done.
  - rewrite aggregate_keys. apply (aggregate_from_wf [] _ wf_nil).
  - intros k. rewrite aggregate_keys, <-with_key_nonempty, <-summary_is_Some.
    rewrite <-(getitem_aggregate_from k []).
    destruct (getitem k (aggregate_from [] observations)) eqn:Hg.
    + split; [by eauto|]. intros _. apply dec_stable. intros Hn.
      apply getitem_None in Hn. congruence.
    + split; [|by intros [? ?]]. intros Hin. by apply getitem_None in Hg.
  - intros agg Hin group. apply elem_of_aggregate in Hin.
    rewrite getitem_aggregate_from in Hin. simpl in Hin. fold group in Hin.
    rewrite <-summary_request_fields, <-summary_request_headers,
      <-summary_query_params, <-summary_response_codes, <-summary_call_count.
    by rewrite Hin.
Qed.

(** C2. Whatever the order in which a batch is presented, every record that
    [aggregate] produces has [first_seen <= last_seen]; [first_seen] is the
    minimum and [last_seen] the maximum of the timestamps of the batch's
    observations with the record's key; and on a tie the bound already held
    is kept: [first_seen] (resp. [last_seen]) is the timestamp of the first
    observation, in the order presented, that attains the minimum (resp.
    maximum). *)
Theorem aggregate_first_last_seen
  (batch ordering : list Observation) (agg : AggregatedObservation) :
  ordering ≡ₚ batch →
  agg ∈ aggregate ordering →
  instant (first_seen agg) ≤ instant (last_seen agg)
  ∧ is_minimum (instant (first_seen agg)) (instants (with_key (agg_key agg) batch))
  ∧ is_maximum (instant (last_seen agg)) (instants (with_key (agg_key agg) batch))
  ∧ keeps_earliest (first_seen agg) (o_timestamp <$> with_key (agg_key agg) ordering)
  ∧ keeps_latest (last_seen agg) (o_timestamp <$> with_key (agg_key agg) ordering).
Proof.
  intros Hperm Hin. apply elem_of_aggregate in Hin.
  rewrite getitem_aggregate_from, summary_None in Hin. simpl in Hin.
  destruct (with_key (agg_key agg) ordering) as [|obs l] eqn:Hgroup; [done|].
  injection Hin as <-.
  pose proof (fold_merge_first_seen l obs) as Hfirst.
  pose proof (fold_merge_last_seen l obs) as Hlast.
  rewrite fold_merge_key in Hgroup |- *.
  set (agg := fold_left merge l (fresh obs)) in *.
  pose proof (keeps_earliest_minimum _ _ Hfirst) as Hmin.
  pose proof (keeps_latest_maximum _ _ Hlast) as Hmax.
  assert (instants (obs :: l) ≡ₚ instants (with_key (agg_key (fresh obs)) batch))
    as Hp by (rewrite <-Hgroup; by apply instants_with_key_perm).
  split_and!; [|by eapply is_minimum_perm|by eapply is_maximum_perm|done|done].
  destruct Hmin as [_ Hle], Hmax as [Hmem _].
  rewrite Forall_forall in Hle. by apply Hle.
Qed.

(** C3. Aggregating a batch and then carrying on from its result over a
    second batch gives the very records of one pass over the concatenation;
    and, key by key, the sets of the one-pass record are the unions, and its
    count the sum, of those of the records of the two batches aggregated
    apart (a key without a record counting as empty sets and zero). *)
Theorem aggregate_merge_associative (batch1 batch2 : list Observation) :
  values (aggregate_from (aggregate_from [] batch1) batch2)
    = aggregate (batch1 ++ batch2)
  ∧ ∀ k,
      let whole := getitem k (aggregate_from [] (batch1 ++ batch2)) in
      let part1 := getitem k (aggregate_from [] batch1) in
      let part2 := getitem k (aggregate_from [] batch2) in
      set_of request_fields whole
        = set_of request_fields part1 ∪ set_of request_fields part2
      ∧ set_of request_headers whole
        = set_of request_headers part1 ∪ set_of request_headers part2
      ∧ set_of query_params whole
        = set_of query_params part1 ∪ set_of query_params part2
      ∧ set_of response_codes whole
        = set_of response_codes part1 ∪ set_of response_codes part2
      ∧ count_of whole = count_of part1 + count_of part2.
Proof.
  split.
  - unfold aggregate, aggregate_from. by rewrite fold_left_app.
  - intros k. simpl. rewrite !getitem_aggregate_from. simpl.
    rewrite !summary_request_fields, !summary_request_headers,
      !summary_query_params, !summary_response_codes, !summary_call_count.
    unfold with_key, codes. rewrite filter_app, !fmap_app, !union_list_app_L.
    rewrite list_to_set_app_L, length_app. split_and!; try done. lia.
Qed.

End AggregatorFacts.

Module DynamoFacts.
Import Dynamo.

Section write.
Variable isoformat : datetime → string.

Abbreviation attr_values := (Dynamo.attr_values isoformat).
Abbreviation request := (Dynamo.request isoformat).
Abbreviation upsert_effect := (Dynamo.upsert_effect isoformat).
Abbreviation write_observation := (Dynamo.write_observation isoformat).

Ltac by_cases agg :=
  unfold Dynamo.attr_values, store_if;
  destruct (truthy (request_fields agg)), (truthy (request_headers agg)),
    (truthy (query_params agg)), (truthy (response_codes agg)).

Lemma attr_values_fixed agg d :
  attr_values agg d !! ":count" = Some (AttrN (call_count agg))
  ∧ attr_values agg d !! ":last_seen" = Some (AttrS (isoformat (last_seen agg)))
  ∧ attr_values agg d !! ":first_seen" = Some (AttrS (isoformat (first_seen agg)))
  ∧ attr_values agg d !! ":ttl" = Some (AttrN (ttl agg d)).
Proof. by_cases agg; by vm_compute. Qed.

Lemma attr_values_sets agg d :
  attr_values agg d !! ":rf"
    = (if truthy (request_fields agg) then Some (AttrSS (request_fields agg)) else None)
  ∧ attr_values agg d !! ":rh"
    = (if truthy (request_headers agg) then Some (AttrSS (request_headers agg)) else None)
  ∧ attr_values agg d !! ":qp"
    = (if truthy (query_params agg) then Some (AttrSS (query_params agg)) else None)
  ∧ attr_values agg d !! ":rc"
    = (if truthy (response_codes agg) then Some (AttrSS (response_codes agg)) else None).
Proof. by_cases agg; by vm_compute. Qed.

Lemma parse_request agg :
  parse_update_expression (update_expression agg)
  = Some (actions (truthy (request_fields agg)) (truthy (request_headers agg))
            (truthy (query_params agg)) (truthy (response_codes agg))).
Proof.
  unfold update_expression, add_parts.
  by destruct (truthy (request_fields agg)), (truthy (request_headers agg)),
    (truthy (query_params agg)), (truthy (response_codes agg)).
Qed.

Lemma truthy_spec s : truthy s = true ↔ s ≠ ∅.
Proof. unfold truthy. by rewrite bool_decide_eq_true. Qed.

Lemma truthy_false s : truthy s = false ↔ s = ∅.
Proof.
  unfold truthy. rewrite bool_decide_eq_false. split; [apply dec_stable | auto].
Qed.

(** No value of the request is an empty set. *)
Lemma attr_values_nonempty agg d r ss :
  attr_values agg d !! r = Some (AttrSS ss) → ss ≠ ∅.
Proof.
  unfold Dynamo.attr_values, store_if.
  destruct (truthy (request_fields agg)) eqn:H1,
    (truthy (request_headers agg)) eqn:H2,
    (truthy (query_params agg)) eqn:H3,
    (truthy (response_codes agg)) eqn:H4;
    rewrite ?truthy_spec in *; intros Hl;
    repeat (apply lookup_insert_Some in Hl as [[_ Hl]|[_ Hl]];
            [by simplify_eq|]); by rewrite lookup_empty in Hl.
Qed.

Lemma validate_request agg d :
  validate (actions (truthy (request_fields agg)) (truthy (request_headers agg))
              (truthy (query_params agg)) (truthy (response_codes agg)))
    (request agg d) = true.
Proof.
  unfold validate. rewrite !andb_true_iff, !bool_decide_eq_true. split_and!.
  - intros r v Hl ->. by apply attr_values_nonempty in Hl.
  - cbn [ExpressionAttributeValues Dynamo.request].
    unfold Dynamo.attr_values, store_if.
    destruct (truthy (request_fields agg)), (truthy (request_headers agg)),
      (truthy (query_params agg)), (truthy (response_codes agg));
      repeat (apply map_Forall_insert_2; [vm_compute; set_solver|]);
      apply map_Forall_empty.
  - cbn [ExpressionAttributeNames Dynamo.request].
    apply map_Forall_singleton.
    destruct (truthy (request_fields agg)), (truthy (request_headers agg)),
      (truthy (query_params agg)), (truthy (response_codes agg));
      vm_compute; set_solver.
Qed.

Lemma apply_set_val req (old new : item) p p' r v :
  resolve_path (ExpressionAttributeNames req) p = Ok p' →
  ExpressionAttributeValues req !! r = Some v →
  apply_action req old (Ok new) (SetAction p (Val r)) = Ok (<[p' := v]> new).
Proof. intros Hp Hv. unfold apply_action. cbn [rbind]. by rewrite Hp, Hv. Qed.

Lemma apply_set_if_not_exists req (old new : item) p p' q q' r v :
  resolve_path (ExpressionAttributeNames req) p = Ok p' →
  resolve_path (ExpressionAttributeNames req) q = Ok q' →
  ExpressionAttributeValues req !! r = Some v →
  apply_action req old (Ok new) (SetAction p (IfNotExists q r))
  = Ok (<[p' := default v (old !! q')]> new).
Proof.
  intros Hp Hq Hv. unfold apply_action. cbn [rbind]. rewrite Hp. cbn [rbind].
  by rewrite Hq, Hv.
Qed.

Lemma apply_add_number req (old new : item) p p' r n :
  resolve_path (ExpressionAttributeNames req) p = Ok p' →
  ExpressionAttributeValues req !! r = Some (AttrN n) →
  number_or_absent (old !! p') →
  apply_action req old (Ok new) (AddAction p r) = Ok (add_number p' n old new).
Proof.
  intros Hp Hv Hty. unfold apply_action, add_number. cbn [rbind].
  rewrite Hp, Hv. cbn [rbind of_option].
  by destruct (old !! p') as [[]|].
Qed.

Lemma apply_add_set req (old new : item) p p' r s :
  resolve_path (ExpressionAttributeNames req) p = Ok p' →
  ExpressionAttributeValues req !! r = Some (AttrSS s) →
  set_or_absent (old !! p') →
  apply_action req old (Ok new) (AddAction p r) = Ok (add_set p' s old new).
Proof.
  intros Hp Hv Hty. unfold apply_action, add_set. cbn [rbind].
  rewrite Hp, Hv. cbn [rbind of_option].
  by destruct (old !! p') as [[]|].
Qed.

Lemma apply_add_set_if req (old new : item) p p' r s (b : bool) acts :
  resolve_path (ExpressionAttributeNames req) p = Ok p' →
  ExpressionAttributeValues req !! r = (if b then Some (AttrSS s) else None) →
  set_or_absent (old !! p') →
  fold_left (apply_action req old) (append_if b (AddAction p r) ++ acts) (Ok new)
  = fold_left (apply_action req old) acts (Ok (add_set_if b p' s old new)).
Proof.
  intros Hp Hv Hty. destruct b; [|done]. cbn [append_if app fold_left add_set_if].
  by erewrite apply_add_set.
Qed.

(** The request that [write_observation] builds has exactly the five
    effects of an upsert, on every item whose counter and sets have the
    types that [ADD] expects. *)
Lemma update_item_on_request old agg d :
  well_typed old →
  update_item_on old (request agg d) = Ok (upsert_effect old agg d).
Proof.
  intros (Hn & Hrf & Hrh & Hqp & Hrc).
  destruct (attr_values_fixed agg d) as (Hcount & Hlast & Hfirst & Httl).
  destruct (attr_values_sets agg d) as (Vrf & Vrh & Vqp & Vrc).
  unfold update_item_on.
  change (UpdateExpression (request agg d)) with (update_expression agg).
  rewrite parse_request. cbn [of_option rbind]. rewrite validate_request.
  unfold actions. cbn [app fold_left].
  erewrite apply_set_val; [|reflexivity|exact Hlast].
  erewrite apply_set_if_not_exists; [|reflexivity|reflexivity|exact Hfirst].
  erewrite apply_set_val; [|reflexivity|exact Httl].
  erewrite apply_add_number; [|reflexivity|exact Hcount|exact Hn].
  erewrite apply_add_set_if; [|reflexivity|exact Vrf|exact Hrf].
  erewrite apply_add_set_if; [|reflexivity|exact Vrh|exact Hrh].
  erewrite apply_add_set_if; [|reflexivity|exact Vqp|exact Hqp].
  rewrite <-(app_nil_r (append_if _ _)).
  erewrite apply_add_set_if; [|reflexivity|exact Vrc|exact Hrc].
  reflexivity.
Qed.

Ltac lookup_upsert agg :=
  unfold Dynamo.upsert_effect, add_set_if, add_set, add_number;
  destruct (truthy (request_fields agg)), (truthy (request_headers agg)),
    (truthy (query_params agg)), (truthy (response_codes agg));
  repeat first [ rewrite lookup_insert_eq | rewrite lookup_insert_ne by done ];
  reflexivity.

Lemma upsert_effect_scalars (old : item) agg d :
  upsert_effect old agg d !! "last_seen"
    = Some (AttrS (isoformat (last_seen agg)))
  ∧ upsert_effect old agg d !! "first_seen"
    = Some (default (AttrS (isoformat (first_seen agg))) (old !! "first_seen"))
  ∧ upsert_effect old agg d !! "ttl" = Some (AttrN (ttl agg d))
  ∧ upsert_effect old agg d !! "call_count"
    = Some (AttrN (match old !! "call_count" with
                   | Some (AttrN m) => m + call_count agg
                   | _ => call_count agg
                   end)).
Proof. split_and!; lookup_upsert agg. Qed.

Lemma upsert_effect_sets (old : item) agg d :
  upsert_effect old agg d !! "request_fields"
    = (if truthy (request_fields agg)
       then Some (AttrSS (match old !! "request_fields" with
                          | Some (AttrSS s0) => s0 ∪ request_fields agg
                          | _ => request_fields agg
                          end))
       else old !! "request_fields")
  ∧ upsert_effect old agg d !! "request_headers"
    = (if truthy (request_headers agg)
       then Some (AttrSS (match old !! "request_headers" with
                          | Some (AttrSS s0) => s0 ∪ request_headers agg
                          | _ => request_headers agg
                          end))
       else old !! "request_headers")
  ∧ upsert_effect old agg d !! "query_params"
    = (if truthy (query_params agg)
       then Some (AttrSS (match old !! "query_params" with
                          | Some (AttrSS s0) => s0 ∪ query_params agg
                          | _ => query_params agg
                          end))
       else old !! "query_params")
  ∧ upsert_effect old agg d !! "response_codes"
    = (if truthy (response_codes agg)
       then Some (AttrSS (match old !! "response_codes" with
                          | Some (AttrSS s0) => s0 ∪ response_codes agg
                          | _ => response_codes agg
                          end))
       else old !! "response_codes").
Proof. split_and!; lookup_upsert agg. Qed.

Lemma upsert_effect_well_typed (old : item) agg d :
  well_typed old → well_typed (upsert_effect old agg d).
Proof.
  intros (Hn & Hrf & Hrh & Hqp & Hrc).
  destruct (upsert_effect_scalars old agg d) as (_ & _ & _ & Hc).
  destruct (upsert_effect_sets old agg d) as (Srf & Srh & Sqp & Src).
  unfold well_typed. rewrite Hc, Srf, Srh, Sqp, Src.
  split_and!; [exact I|..];
    match goal with |- set_or_absent (if ?b then _ else _) => destruct b end;
    first [exact I|assumption].
Qed.

Lemma new_item_well_typed (k : string * string) :
  well_typed {[ "PK" := AttrS k.1; "SK" := AttrS k.2 ]}.
Proof. by vm_compute. Qed.

Lemma write_observation_effect (t : table) agg d :
  well_typed (item_or_new t (pk agg, sk agg)) →
  write_observation t agg d
  = Ok (<[(pk agg, sk agg) := upsert_effect (item_or_new t (pk agg, sk agg)) agg d]> t).
Proof.
  intros Hty. unfold Dynamo.write_observation, update_item.
  change (Key (request agg d)) with (pk agg, sk agg).
  by rewrite update_item_on_request.
Qed.

Lemma item_or_new_empty (k : string * string) :
  item_or_new ∅ k = {[ "PK" := AttrS k.1; "SK" := AttrS k.2 ]}.
Proof. unfold item_or_new. by rewrite lookup_empty. Qed.

Lemma item_or_new_insert (t : table) k it : item_or_new (<[k := it]> t) k = it.
Proof. unfold item_or_new. by rewrite lookup_insert_eq. Qed.

(** C4. Written twice to an empty table, a record ends with twice the
    count of a single write, with the very set attributes of a single write
    (the sets themselves where they are not empty, no attribute where they
    are), with the [first_seen] that the first write set and with the
    [last_seen] of the last write. *)
Theorem write_observation_twice (agg : AggregatedObservation) (ttl_days : Z) :
  ∃ (t1 t2 : table) (r1 r2 : item),
    write_observation ∅ agg ttl_days = Ok t1
    ∧ write_observation t1 agg ttl_days = Ok t2
    ∧ t1 !! (pk agg, sk agg) = Some r1
    ∧ t2 !! (pk agg, sk agg) = Some r2
    ∧ r1 !! "call_count" = Some (AttrN (call_count agg))
    ∧ r2 !! "call_count" = Some (AttrN (2 * call_count agg))
    ∧ r1 !! "request_fields" = stored_set (request_fields agg)
    ∧ r2 !! "request_fields" = r1 !! "request_fields"
    ∧ r1 !! "request_headers" = stored_set (request_headers agg)
    ∧ r2 !! "request_headers" = r1 !! "request_headers"
    ∧ r1 !! "query_params" = stored_set (query_params agg)
    ∧ r2 !! "query_params" = r1 !! "query_params"
    ∧ r1 !! "response_codes" = stored_set (response_codes agg)
    ∧ r2 !! "response_codes" = r1 !! "response_codes"
    ∧ r1 !! "first_seen" = Some (AttrS (isoformat (first_seen agg)))
    ∧ r2 !! "first_seen" = r1 !! "first_seen"
    ∧ r2 !! "last_seen" = Some (AttrS (isoformat (last_seen agg))).
Proof.
  set (k := (pk agg, sk agg)).
  set (new := {[ "PK" := AttrS k.1; "SK" := AttrS k.2 ]} : item).
  set (r1 := upsert_effect new agg ttl_days).
  set (r2 := upsert_effect r1 agg ttl_days).
  assert (well_typed new) as Hnew by apply new_item_well_typed.
  assert (well_typed r1) as Hr1 by by apply upsert_effect_well_typed.
  exists (<[k := r1]> ∅), (<[k := r2]> (<[k := r1]> ∅)), r1, r2.
  destruct (upsert_effect_scalars new agg ttl_days) as (L1 & F1 & _ & C1).
  destruct (upsert_effect_sets new agg ttl_days) as (Srf1 & Srh1 & Sqp1 & Src1).
  destruct (upsert_effect_scalars r1 agg ttl_days) as (L2 & F2 & _ & C2).
  destruct (upsert_effect_sets r1 agg ttl_days) as (Srf2 & Srh2 & Sqp2 & Src2).
  fold r1 in L1, F1, C1, Srf1, Srh1, Sqp1, Src1.
  fold r1 r2 in L2, F2, C2, Srf2, Srh2, Sqp2, Src2.
  change (new !! "first_seen") with (@None attr) in F1.
  change (new !! "call_count") with (@None attr) in C1.
  change (new !! "request_fields") with (@None attr) in Srf1.
  change (new !! "request_headers") with (@None attr) in Srh1.
  change (new !! "query_params") with (@None attr) in Sqp1.
  change (new !! "response_codes") with (@None attr) in Src1.
  split_and!.
  - rewrite write_observation_effect; rewrite item_or_new_empty; done.
  - rewrite write_observation_effect; rewrite item_or_new_insert; done.
  - apply lookup_insert_eq.
  - apply lookup_insert_eq.
  - exact C1.
  - rewrite C2, C1. do 2 f_equal. lia.
  - exact Srf1.
  - rewrite Srf2, Srf1. unfold stored_set.
    destruct (truthy (request_fields agg)); [|done]. by rewrite union_idemp_L.
  - exact Srh1.
  - rewrite Srh2, Srh1. unfold stored_set.
    destruct (truthy (request_headers agg)); [|done]. by rewrite union_idemp_L.
  - exact Sqp1.
  - rewrite Sqp2, Sqp1. unfold stored_set.
    destruct (truthy (query_params agg)); [|done]. by rewrite union_idemp_L.
  - exact Src1.
  - rewrite Src2, Src1. unfold stored_set.
    destruct (truthy (response_codes agg)); [|done]. by rewrite union_idemp_L.
  - exact F1.
  - by rewrite F2, F1.
  - exact L2.
Qed.

Ltac by_truthy agg :=
  unfold guarded, stored_set, update_expression, add_parts,
    Dynamo.attr_values, store_if;
  rewrite <-!truthy_spec;
  destruct (truthy (request_fields agg)), (truthy (request_headers agg)),
    (truthy (query_params agg)), (truthy (response_codes agg));
  (split_and!; [vm_compute; set_solver | by vm_compute | by vm_compute]).

(** C5. The update expression has the union-add clause of a set, and the
    request the value for it, exactly when the set is not empty; no value of
    the request is an empty set; and a record with its three name sets empty
    is written without any mention of them, so that the stored record has no
    such attributes and the store accepts the request. *)
Theorem write_observation_guards (agg : AggregatedObservation) (ttl_days : Z) :
  guarded isoformat agg ttl_days (request_fields agg) "request_fields :rf" ":rf"
  ∧ guarded isoformat agg ttl_days (request_headers agg) "request_headers :rh" ":rh"
  ∧ guarded isoformat agg ttl_days (query_params agg) "query_params :qp" ":qp"
  ∧ guarded isoformat agg ttl_days (response_codes agg) "response_codes :rc" ":rc"
  ∧ (∀ ref ss, attr_values agg ttl_days !! ref = Some (AttrSS ss) → ss ≠ ∅)
  ∧ (request_fields agg = ∅ → request_headers agg = ∅ → query_params agg = ∅ →
       contains "request_fields" (update_expression agg) = false
       ∧ contains "request_headers" (update_expression agg) = false
       ∧ contains "query_params" (update_expression agg) = false
       ∧ ∃ (t : table) (r : item),
           write_observation ∅ agg ttl_days = Ok t
           ∧ t !! (pk agg, sk agg) = Some r
           ∧ r !! "request_fields" = None
           ∧ r !! "request_headers" = None
           ∧ r !! "query_params" = None).
Proof.
  split_and!.
  - by_truthy agg.
  - by_truthy agg.
  - by_truthy agg.
  - by_truthy agg.
  - apply attr_values_nonempty.
  - intros Hrf%truthy_false Hrh%truthy_false Hqp%truthy_false.
    split_and!.
    1-3: unfold update_expression, add_parts; rewrite Hrf, Hrh, Hqp;
         by destruct (truthy (response_codes agg)).
    set (new := {[ "PK" := AttrS (pk agg, sk agg).1;
                   "SK" := AttrS (pk agg, sk agg).2 ]} : item).
    exists (<[(pk agg, sk agg) := upsert_effect new agg ttl_days]> ∅),
      (upsert_effect new agg ttl_days).
    destruct (upsert_effect_sets new agg ttl_days) as (Srf & Srh & Sqp & _).
    rewrite Hrf in Srf. rewrite Hrh in Srh. rewrite Hqp in Sqp.
    split_and!; [|apply lookup_insert_eq|done..].
    rewrite write_observation_effect; rewrite item_or_new_empty; [done|].
    apply new_item_well_typed.
Qed.

End write.
End DynamoFacts.

Module FetchFacts.
Import Dynamo.

Lemma fetch_loop_spec (st : store) (part : string) (fuel : nat)
  (cursor : option nat) (acc : list item) :
  (length (pages st part) - default 0 cursor < fuel)%nat →
  ∃ r, fetch_loop fuel st (Kwargs part cursor) acc = Some r
       ∧ complete_or_failed st part (default 0%nat cursor) acc r.
Proof.
  revert cursor acc. induction fuel as [|fuel IH]; intros cursor acc Hfuel; [lia|].
  set (i := default 0%nat cursor) in *. set (n := length (pages st part)) in *.
  cbn [fetch_loop]. unfold query. cbn [KeyConditionExpression ExclusiveStartKey].
  fold i. destruct (fault st part i) as [e|] eqn:Hfault.
  - exists (Err e). split; [done|]. exists i. split; [lia|]. split; [done|]. intros; lia.
  - cbn [Items LastEvaluatedKey]. fold n. case_bool_decide as Hmore.
    + destruct (IH (Some (S i)) (acc ++ default [] (pages st part !! i)))
        as (r & Hr & Hspec); [simpl; lia|].
      exists r. split; [exact Hr|]. simpl in Hspec. fold n in Hspec.
      assert (is_Some (pages st part !! i)) as [pg Hpg]
        by (apply lookup_lt_is_Some; fold n; lia).
      rewrite Hpg in Hspec. simpl in Hspec.
      unfold complete_or_failed. fold n. destruct r as [items|e].
      * destruct Hspec as [-> Hnone]. split.
        -- rewrite (drop_S _ _ _ Hpg). simpl. by rewrite <-app_assoc.
        -- intros j Hj. destruct (decide (j = i)) as [->|]; [done|].
           apply Hnone. lia.
      * destruct Hspec as (j & Hj & Hf & Hbefore). exists j.
        split; [lia|]. split; [done|]. intros j' Hj'.
        destruct (decide (j' = i)) as [->|]; [done|]. apply Hbefore. lia.
    + exists (Ok (acc ++ default [] (pages st part !! i))). split; [done|].
      unfold complete_or_failed. fold n. split.
      * f_equal. destruct (pages st part !! i) as [pg|] eqn:Hpg.
        -- rewrite (drop_S _ _ _ Hpg). rewrite drop_ge by (fold n; lia).
           simpl. by rewrite app_nil_r.
        -- apply lookup_ge_None in Hpg. by rewrite drop_ge.
      * intros j Hj. assert (j = i) as -> by lia. done.
Qed.

(** C7. Given fuel for one query per page, [fetch_service_data] ends, and
    ends in one of two ways: with the items of every page of the service's
    partition, concatenated in page order (so each record as often as the
    store holds it), no query having failed; or with the error of the first
    query that failed.  It never returns some of the pages only. *)
Theorem fetch_service_data_complete_or_fails
  (st : store) (service_name : string) (fuel : nat) :
  (length (pages st ("SERVICE#" +:+ service_name)) < fuel)%nat →
  ∃ r, fetch_service_data fuel st service_name = Some r
       ∧ complete_or_failed st ("SERVICE#" +:+ service_name) 0 [] r
       ∧ (∀ items, r = Ok items →
            items = concat (pages st ("SERVICE#" +:+ service_name))
            ∧ (NoDup (concat (pages st ("SERVICE#" +:+ service_name)))
               → NoDup items)).
Proof.
  intros Hfuel. unfold fetch_service_data.
  destruct (fetch_loop_spec st ("SERVICE#" +:+ service_name) fuel None [])
    as (r & Hr & Hspec); [simpl; lia|].
  exists r. split_and!; [done|done|].
  intros items ->. destruct Hspec as [-> _]. by rewrite drop_0.
Qed.

End FetchFacts.

Module BufferFacts.
Import Buffer.

(** [add] in closed form: the observation is appended; when a trigger
    fires the whole buffer leaves in one batch handed to a new thread. *)
Lemma add_unlocked cfg obs s :
  _lock s = false →
  add cfg obs s =
    Return tt
      (if bool_decide (Z.of_nat (length (_observations s ++ [obs])) >= max_size cfg)
          || bool_decide (clock s - _last_flush s >= flush_interval cfg)
       then State [] (clock s) false (clock s) (calls s) (warnings s)
              (threads s ++ [_observations s ++ [obs]])
       else State (_observations s ++ [obs]) (_last_flush s) false (clock s)
              (calls s) (warnings s) (threads s)).
Proof.
  intros Hlock. destruct s as [buf last lk now cs ws ts]. simpl in Hlock. subst lk.
  unfold add, with_lock, _should_flush, _flush_async, _drain, bind, modify, gets,
    time_monotonic, ret. cbn -[length Z.of_nat].
  case_bool_decide; cbn -[length Z.of_nat].
  - by destruct buf.
  - case_bool_decide; cbn; [by destruct buf|done].
Qed.

Lemma flush_unlocked cfg s :
  _lock s = false →
  flush cfg s =
    match _observations s with
    | [] => Return tt (State [] (clock s) false (clock s) (calls s) (warnings s) (threads s))
    | _ :: _ =>
        let s' cs ws := State [] (clock s) false (clock s) cs ws (threads s) in
        match _flush_fn cfg (_observations s) with
        | Returns => Return tt (s' (calls s ++ [_observations s]) (warnings s))
        | Raises (ExceptionE _) =>
            Return tt (s' (calls s ++ [_observations s]) (S (warnings s)))
        | Raises (BaseExceptionE name) =>
            Raise (BaseExceptionE name)
              (s' (calls s ++ [_observations s]) (warnings s))
        | Sleeps =>
            Hang (State [] (clock s) true (clock s) (calls s ++ [_observations s])
                    (warnings s) (threads s))
        end
    end.
Proof.
  intros Hlock. destruct s as [buf last lk now cs ws ts]. simpl in Hlock. subst lk.
  unfold flush, with_lock, _flush_sync, _drain, _safe_flush, try_except_Exception,
    call_flush_fn, bind, modify, gets, time_monotonic, ret. cbn.
  destruct buf as [|o buf]; [done|]. cbn.
  by destruct (_flush_fn cfg (o :: buf)) as [|[]|].
Qed.

Lemma safe_flush_closed cfg batch s :
  _safe_flush cfg batch s =
    match _flush_fn cfg batch with
    | Returns => Return tt (add_call batch s)
    | Raises (ExceptionE _) => Return tt (add_warning (add_call batch s))
    | Raises (BaseExceptionE name) => Raise (BaseExceptionE name) (add_call batch s)
    | Sleeps => Hang (add_call batch s)
    end.
Proof.
  unfold _safe_flush, try_except_Exception, call_flush_fn, modify.
  by destruct (_flush_fn cfg batch) as [|[]|].
Qed.

Lemma add_returns cfg obs s :
  _lock s = false →
  ∃ s', add cfg obs s = Return tt s' ∧ _lock s' = false
        ∧ calls s' = calls s ∧ warnings s' = warnings s.
Proof.
  intros Hlock. rewrite add_unlocked by done. eexists. split; [done|].
  by case_match.
Qed.

(** C6. With a flush function that raises an [Exception] on every call,
    whatever is done with the buffer - calls of [add] and of [flush], time
    passing, started threads running - every call returns: none raises and
    none is left waiting.  Each failed call of the flush function is one
    logged warning, the lock is free afterwards, and a further [add]
    returns as well. *)
Theorem flush_failures_are_contained (cfg : config) :
  raises_always cfg →
  ∀ (evs : list event) (s : state),
    _lock s = false →
    ∃ s', run_events cfg evs s = Return tt s'
          ∧ _lock s' = false
          ∧ (warnings s' + length (calls s) = warnings s + length (calls s'))%nat
          ∧ ∀ obs, ∃ s'', add cfg obs s' = Return tt s''.
Proof.
  intros Hraises evs. induction evs as [|ev evs IH]; intros s Hlock.
  - exists s. split_and!; [done|done|lia|].
    intros obs. destruct (add_returns cfg obs s Hlock) as (s'' & ? & _). eauto.
  - assert (∃ s1, run_event cfg ev s = Return tt s1 ∧ _lock s1 = false
              ∧ (warnings s1 + length (calls s)
                 = warnings s + length (calls s1))%nat)
      as (s1 & Hrun & Hl1 & Hw1).
    { destruct ev as [obs| |d|batch]; cbn [run_event].
      - destruct (add_returns cfg obs s Hlock) as (s1 & -> & ? & Hc & Hw).
        exists s1. rewrite Hc, Hw. split_and!; [done|done|lia].
      - rewrite flush_unlocked by done.
        destruct (_observations s) as [|o buf] eqn:Hbuf.
        + eexists. split_and!; [done|done|cbn; lia].
        + destruct (Hraises (o :: buf)) as [name ->].
          eexists. split_and!; [done|done|..]; cbn; rewrite ?length_app; cbn; lia.
      - eexists. split_and!; [done|done|..]; cbn; lia.
      - rewrite safe_flush_closed. destruct (Hraises batch) as [name ->].
        eexists. split_and!; [done|done|..]; cbn; rewrite ?length_app; cbn; lia. }
    destruct (IH s1 Hl1) as (s' & Hrest & Hl' & Hw' & Hadd).
    exists s'. cbn [run_events]. unfold bind at 1. rewrite Hrun.
    split_and!; [done|done|lia|done].
Qed.

End BufferFacts.

Module MachineFacts.
Import Buffer.

Lemma holders_app l1 l2 : holders (l1 ++ l2) = (holders l1 + holders l2)%nat.
Proof. unfold holders. by rewrite filter_app, length_app. Qed.

Lemma holders_cons p l :
  holders (p :: l) = ((if critical p then 1 else 0) + holders l)%nat.
Proof. unfold holders. rewrite filter_cons. by destruct (critical p). Qed.

Lemma holders_zero l : holders l = 0%nat → Forall (λ p, critical p = false) l.
Proof.
  induction l as [|p l IH]; [constructor|]. rewrite holders_cons.
  destruct (critical p) eqn:Hp; [lia|]. constructor; auto.
Qed.

Lemma copy_ok_noncritical s p : critical p = false → copy_ok s p.
Proof. by destruct p. Qed.

Lemma copy_ok_same s s' p :
  _observations s' = _observations s → copy_ok s p → copy_ok s' p.
Proof. intros Heq. destruct p; simpl; congruence. Qed.

(** Case analysis on one statement of one thread. *)
Ltac tstep_cases p H :=
  destruct p; simpl in H;
  repeat match type of H with
         | context [if ?b then _ else _] => destruct b eqn:?
         | context [match ?x with _ => _ end] => destruct x eqn:?
         end;
  simplify_eq.

(** The lock changes hands only where a thread enters or leaves a [with]
    block. *)
Lemma tstep_lock cfg p s p' s' spawned :
  tstep cfg p s = Some (p', s', spawned) →
  (critical p = true → _lock s = true) →
  ((if _lock s' then 1 else 0) + (if critical p then 1 else 0)
   = (if _lock s then 1 else 0) + (if critical p' then 1 else 0))%nat
  ∧ holders spawned = 0%nat.
Proof.
  intros H Hheld. tstep_cases p H; cbn in *;
    try (rewrite Hheld by done); try done;
    repeat match goal with H : _lock _ = _ |- _ => rewrite H end; done.
Qed.

(** Only a thread that holds the lock changes the buffer. *)
Lemma tstep_observations cfg p s p' s' spawned :
  tstep cfg p s = Some (p', s', spawned) →
  critical p = false → _observations s' = _observations s.
Proof. intros H Hcrit. by tstep_cases p H. Qed.

Lemma tstep_copy_ok cfg p s p' s' spawned :
  tstep cfg p s = Some (p', s', spawned) →
  copy_ok s' p' ∧ Forall (copy_ok s') spawned.
Proof. intros H. tstep_cases p H; by repeat constructor. Qed.

(** No statement loses or doubles an observation. *)
Lemma tstep_conserves cfg p s p' s' spawned :
  tstep cfg p s = Some (p', s', spawned) →
  copy_ok s p →
  holds p' ++ concat (holds <$> spawned) ++ _observations s' ++ concat (calls s')
  ≡ₚ holds p ++ _observations s ++ concat (calls s).
Proof.
  intros H Hcopy. tstep_cases p H; cbn in *; subst;
    rewrite ?concat_app, ?app_nil_r; cbn; rewrite ?app_nil_r;
    try done; try solve_Permutation.
  all: by match goal with H : nonempty ?b = false |- _ => destruct b end.
Qed.

Lemma invariant_start now : invariant (start now).
Proof. split_and!; [done|constructor|done]. Qed.

Lemma invariant_step cfg c c' : invariant c → step cfg c c' → invariant c'.
Proof.
  intros (Hlock & Hcopy & Hperm) Hstep. unfold invariant.
  destruct Hstep as [c i p p' s' spawned Hi Hstep|c obs|c|c d Hd];
    cbn [mem pool added]; unfold in_flight, delivered in *; cbn [mem pool added].
  - apply list_elem_of_split_length in Hi as (l1 & l2 & Hpool & ->).
    rewrite Hpool in *.
    rewrite insert_app_r_alt, Nat.sub_diag by done. cbn [insert list_insert].
    rewrite Forall_app, Forall_cons in Hcopy. destruct Hcopy as (Hc1 & Hcp & Hc2).
    rewrite holders_app, holders_cons in Hlock.
    rewrite !fmap_app, !fmap_cons, !concat_app, !concat_cons in Hperm.
    rewrite <-!app_assoc. cbn [app].
    rewrite !holders_app, !holders_cons, !holders_app.
    rewrite !Forall_app, !Forall_cons, !Forall_app.
    rewrite !fmap_app, !fmap_cons, !fmap_app, !concat_app, !concat_cons, !concat_app.
    destruct (tstep_lock _ _ _ _ _ _ Hstep) as [Hl Hsp].
    { intros Hcrit. rewrite Hcrit in Hlock. destruct (_lock (mem c)); [done|lia]. }
    destruct (tstep_copy_ok _ _ _ _ _ _ Hstep) as [Hcp' Hsp'].
    pose proof (tstep_conserves _ _ _ _ _ _ Hstep Hcp) as Hcons.
    split_and!.
    + destruct (_lock s'), (critical p), (critical p'), (_lock (mem c)); lia.
    + destruct (critical p) eqn:Hcrit.
      * eapply Forall_impl; [apply holders_zero|apply copy_ok_noncritical].
        destruct (_lock (mem c)); lia.
      * eapply Forall_impl; [exact Hc1|]. intros q. apply copy_ok_same.
        by eapply tstep_observations.
    + done.
    + destruct (critical p) eqn:Hcrit.
      * eapply Forall_impl; [apply holders_zero|apply copy_ok_noncritical].
        destruct (_lock (mem c)); lia.
      * eapply Forall_impl; [exact Hc2|]. intros q. apply copy_ok_same.
        by eapply tstep_observations.
    + done.
    + rewrite Hperm.
      transitivity (concat (holds <$> l1) ++ concat (holds <$> l2)
                    ++ (holds p ++ _observations (mem c) ++ concat (calls (mem c)))).
      { solve_Permutation. }
      rewrite <-Hcons. solve_Permutation.
  - rewrite holders_app, holders_cons, Forall_app, fmap_app, concat_app.
    change (holders []) with 0%nat. cbn.
    split_and!; [lia|done|by repeat constructor|].
    rewrite Hperm. by solve_Permutation.
  - rewrite holders_app, holders_cons, Forall_app, fmap_app, concat_app.
    change (holders []) with 0%nat. cbn.
    split_and!; [lia|done|by repeat constructor|].
    rewrite Hperm, !app_nil_r. by solve_Permutation.
  - done.
Qed.

Lemma invariant_reachable cfg c : reachable cfg c → invariant c.
Proof.
  intros [now Hsteps]. revert Hsteps. generalize (invariant_start now).
  generalize (start now). intros c0 Hinv Hsteps.
  induction Hsteps as [|c1 c2 c3 Hstep _ IH]; [done|].
  apply IH. by eapply invariant_step.
Qed.

Lemma quiescent_in_flight c : quiescent c → in_flight c = [].
Proof.
  unfold quiescent, in_flight. induction 1 as [|p l Hp _ IH]; [done|].
  rewrite fmap_cons, concat_cons, IH. by destruct p.
Qed.

(** One thread makes its next move. *)
Ltac thread_moves i :=
  eapply rtc_l; [eapply (step_thread _ _ i); reflexivity|]; cbn.

Lemma add_alone_reachable :
  reachable (defaults (λ _, Returns)) after_one_add.
Proof.
  exists 0. eapply rtc_l; [apply (step_call_add _ _ (sample "checkout" 0))|].
  cbn. do 4 thread_moves 0%nat. apply rtc_refl.
Qed.

(** C8, as stated, fails: one call of [add] on a buffer with the default
    triggers returns with the observation in the buffer, and nothing has
    been passed to the flush function. *)
Lemma add_alone_delivers_nothing :
  ¬ all_delivered (defaults (λ _, Returns)) after_one_add.
Proof.
  intros H. specialize (H add_alone_reachable).
  assert (@nil Observation ≡ₚ [sample "checkout" 0]) as Hp
    by (apply H; by repeat constructor).
  by apply Permutation_nil_l in Hp.
Qed.

(** C8, amended. In every state that concurrent callers can reach, each
    observation handed to [add] is in exactly one place: with a thread (not
    yet appended, or taken out of the buffer and not yet passed on), in the
    buffer, or in a batch passed to the flush function.  So once every call
    and thread is over, the observations passed to the flush function
    together with those still in the buffer are exactly those handed to
    [add], each once; and they are all passed on once the buffer is empty,
    as it is after a last [flush]. *)
Theorem no_observation_lost_or_doubled (cfg : config) (c : system) :
  reachable cfg c →
  added c ≡ₚ in_flight c ++ _observations (mem c) ++ delivered c
  ∧ (quiescent c → added c ≡ₚ _observations (mem c) ++ delivered c)
  ∧ (quiescent c → _observations (mem c) = [] →
     delivered c ≡ₚ added c ∧ length (delivered c) = length (added c)).
Proof.
  intros (_ & _ & Hperm)%invariant_reachable. split_and!.
  - done.
  - intros Hq. by rewrite Hperm, quiescent_in_flight.
  - intros Hq Hempty. rewrite Hperm, quiescent_in_flight, Hempty by done.
    by cbn.
Qed.

Lemma no_observation_lost_or_doubled_witness :
  added after_one_add
  ≡ₚ _observations (mem after_one_add) ++ delivered after_one_add.
Proof.
  apply (no_observation_lost_or_doubled (defaults (λ _, Returns)) after_one_add
           add_alone_reachable).
  by repeat constructor.
Defined.

Lemma holders_lookup l i p :
  l !! i = Some p → critical p = true → (1 ≤ holders l)%nat.
Proof.
  intros (l1 & l2 & -> & _)%list_elem_of_split_length Hcrit.
  rewrite holders_app, holders_cons, Hcrit. lia.
Qed.

Lemma lookup_after_step {A} (l : list A) i j x y spawned :
  l !! j = Some y → i ≠ j → (<[i := x]> l ++ spawned) !! j = Some y.
Proof.
  intros Hj Hne. apply lookup_app_l_Some. by rewrite list_lookup_insert_ne.
Qed.

(** While a call of [flush] is inside a flush function that does not
    return, a call of [add] that waits for the lock waits for ever. *)
Lemma add_waits_behind_flush cfg c c' i j batch obs :
  _flush_fn cfg batch = Sleeps →
  invariant c →
  pool c !! i = Some (FlushAwait batch) →
  pool c !! j = Some (AddAcquire obs) →
  rtc (step cfg) c c' →
  invariant c'
  ∧ pool c' !! i = Some (FlushAwait batch)
  ∧ pool c' !! j = Some (AddAcquire obs).
Proof.
  intros Hsleep Hinv Hi Hj Hsteps.
  induction Hsteps as [|c1 c2 c3 Hstep _ IH]; [done|].
  assert (_lock (mem c1) = true) as Hheld.
  { destruct Hinv as (Hlock & _). pose proof (holders_lookup _ _ _ Hi eq_refl).
    destruct (_lock (mem c1)); [done|lia]. }
  pose proof (invariant_step _ _ _ Hinv Hstep) as Hinv2.
  apply IH; [done|..]; clear IH;
    destruct Hstep as [c k p p' s' spawned Hk Hstep| | |]; cbn [pool];
    try (by apply lookup_app_l_Some); try done.
  - destruct (decide (k = i)) as [->|Hne].
    + rewrite Hi in Hk. injection Hk as <-. simpl in Hstep.
      by rewrite Hsleep in Hstep.
    + by apply lookup_after_step.
  - destruct (decide (k = j)) as [->|Hne].
    + rewrite Hj in Hk. injection Hk as <-. simpl in Hstep.
      by rewrite Hheld in Hstep.
    + by apply lookup_after_step.
Qed.

Lemma flush_asleep_reachable : reachable (defaults (λ _, Sleeps)) flush_asleep.
Proof.
  exists 0. eapply rtc_l; [apply (step_call_add _ _ (sample "checkout" 0))|].
  cbn. do 4 thread_moves 0%nat.
  eapply rtc_l; [apply step_call_flush|]. cbn.
  do 5 thread_moves 1%nat.
  eapply rtc_l; [apply (step_call_add _ _ (sample "mobile" 1))|]. cbn.
  apply rtc_refl.
Qed.

(** C9 fails where a synchronous [flush] is under way: [flush] calls the
    flush function with the lock held, so with a flush function that sleeps
    the call of [add] that arrives next never gets past the lock, whatever
    the other threads do and however long it waits. *)
Theorem add_blocks_behind_sleeping_flush :
  reachable (defaults (λ _, Sleeps)) flush_asleep
  ∧ pool flush_asleep !! 2%nat = Some (AddAcquire (sample "mobile" 1))
  ∧ (∀ c', rtc (step (defaults (λ _, Sleeps))) flush_asleep c' →
           pool c' !! 2%nat = Some (AddAcquire (sample "mobile" 1)))
  ∧ ¬ add_can_return (defaults (λ _, Sleeps)) flush_asleep 2.
Proof.
  pose proof flush_asleep_reachable as Hreach0. pose proof Hreach0 as Hreach.
  assert (∀ c', rtc (step (defaults (λ _, Sleeps))) flush_asleep c' →
                pool c' !! 2%nat = Some (AddAcquire (sample "mobile" 1))) as Hstuck.
  { intros c' Hsteps.
    apply invariant_reachable in Hreach.
    by destruct (add_waits_behind_flush (defaults (λ _, Sleeps)) flush_asleep c' 1 2
                   [sample "checkout" 0] (sample "mobile" 1)
                   eq_refl Hreach eq_refl eq_refl Hsteps) as (_ & _ & ?). }
  split_and!; [exact Hreach0|done|done|].
  intros Hreturn. destruct (Hreturn (sample "mobile" 1) eq_refl) as (c' & Hsteps & Hdone).
  apply Hstuck in Hsteps. congruence.
Qed.

Lemma idle_tstep cfg p s p' s' spawned :
  tstep cfg p s = Some (p', s', spawned) →
  in_call p = false →
  in_call p' = false ∧ spawned = []
  ∧ _observations s' = _observations s ∧ threads s' = threads s
  ∧ _last_flush s' = _last_flush s.
Proof. intros H Hp. by tstep_cases p H. Qed.

(** C10. Nothing but a call flushes the buffer.  The time trigger is read
    at one statement only, the check in [add] that follows the append: no
    other statement depends on [flush_interval].  And while no call of [add]
    or [flush] is under way, whatever else happens - the clock moving on by
    any amount, started threads running - leaves the buffer as it is and
    starts no thread: what is buffered stays buffered. *)
Theorem buffer_waits_for_next_call :
  (∀ flush_fn size interval1 interval2 p s,
     p ≠ AddCheck →
     tstep (Config flush_fn size interval1) p s
     = tstep (Config flush_fn size interval2) p s)
  ∧ (∀ cfg p s p' s' spawned,
       tstep cfg p s = Some (p', s', spawned) → p' = AddCheck →
       ∃ obs, p = AddAppend obs ∧ _observations s' = _observations s ++ [obs])
  ∧ (∀ cfg c c',
       idle c → rtc (env_step cfg) c c' →
       idle c'
       ∧ _observations (mem c') = _observations (mem c)
       ∧ _last_flush (mem c') = _last_flush (mem c)
       ∧ threads (mem c') = threads (mem c)
       ∧ length (pool c') = length (pool c)
       ∧ clock (mem c) ≤ clock (mem c')).
Proof.
  split_and!.
  - intros f sz i1 i2 p s Hp. by destruct p.
  - intros cfg p s p' s' spawned H ->. tstep_cases p H. eauto.
  - intros cfg c c' Hidle Hsteps.
    induction Hsteps as [c|c1 c2 c3 Hstep _ IH]; [by split_and!; try lia|].
    assert (idle c2
            ∧ _observations (mem c2) = _observations (mem c1)
            ∧ _last_flush (mem c2) = _last_flush (mem c1)
            ∧ threads (mem c2) = threads (mem c1)
            ∧ length (pool c2) = length (pool c1)
            ∧ clock (mem c1) ≤ clock (mem c2)) as (Hidle2 & Ho & Hl & Ht & Hn & Hc).
    { destruct Hstep as [c i p p' s' spawned Hi Hstep|c d Hd]; cbn [mem pool].
      - assert (in_call p = false) as Hp.
        { unfold idle in Hidle. rewrite Forall_lookup in Hidle. eauto. }
        destruct (idle_tstep _ _ _ _ _ _ Hstep Hp) as (Hp' & -> & ? & ? & ?).
        rewrite app_nil_r, length_insert. split_and!; try done.
        + unfold idle. cbn [pool]. apply Forall_insert; done.
        + tstep_cases p Hstep; cbn; lia.
      - split_and!; try done; cbn; lia. }
    destruct (IH Hidle2) as (? & ? & ? & ? & ? & ?).
    split_and!; [done|congruence..|lia].
Qed.

End MachineFacts.

Module Witnesses.
Import Aggregator Dynamo Buffer.

Lemma aggregate_first_last_seen_witness :
  let late := sample "checkout" 200 in
  let early := sample "checkout" 100 in
  let agg := merge (fresh late) early in
  instant (first_seen agg) ≤ instant (last_seen agg)
  ∧ is_minimum (instant (first_seen agg))
      (instants (with_key (agg_key agg) [early; late]))
  ∧ is_maximum (instant (last_seen agg))
      (instants (with_key (agg_key agg) [early; late]))
  ∧ keeps_earliest (first_seen agg)
      (o_timestamp <$> with_key (agg_key agg) [late; early])
  ∧ keeps_latest (last_seen agg)
      (o_timestamp <$> with_key (agg_key agg) [late; early]).
Proof.
  intros late early agg.
  apply (AggregatorFacts.aggregate_first_last_seen [early; late] [late; early] agg).
  - apply perm_swap.
  - vm_compute. left.
Defined.

Lemma flush_failures_are_contained_witness :
  ∃ s', run_events (defaults (λ _, Raises (ExceptionE "ClientError")))
          [CallAdd (sample "checkout" 0); CallFlush; CallAdd (sample "mobile" 1)]
          (init 0) = Return tt s'
        ∧ _lock s' = false
        ∧ (warnings s' + length (calls (init 0))
           = warnings (init 0) + length (calls s'))%nat
        ∧ ∀ obs, ∃ s'',
            add (defaults (λ _, Raises (ExceptionE "ClientError"))) obs s'
            = Return tt s''.
Proof.
  apply (BufferFacts.flush_failures_are_contained
           (defaults (λ _, Raises (ExceptionE "ClientError")))).
  - intros batch. exists "ClientError". reflexivity.
  - reflexivity.
Defined.

Lemma fetch_service_data_witness :
  let st := Store (λ _, [[{[ "SK" := AttrS "a" ]}]; [{[ "SK" := AttrS "b" ]}]])
              (λ _ _, None) in
  ∃ r, fetch_service_data 3 st "my-api" = Some r
       ∧ complete_or_failed st ("SERVICE#" +:+ "my-api") 0 [] r
       ∧ (∀ items, r = Ok items →
            items = concat (pages st ("SERVICE#" +:+ "my-api"))
            ∧ (NoDup (concat (pages st ("SERVICE#" +:+ "my-api")))
               → NoDup items)).
Proof.
  intros st.
  apply (FetchFacts.fetch_service_data_complete_or_fails st "my-api" 3).
  simpl. lia.
Defined.

End Witnesses.

Module StoreFacts.
Import Dynamo DynamoFacts.

Section store.
Variable isoformat : datetime → string.

Abbreviation upsert_effect := (Dynamo.upsert_effect isoformat).
Abbreviation write_observation := (Dynamo.write_observation isoformat).

Lemma item_or_new_well_typed (t : table) k :
  table_well_typed t → well_typed (item_or_new t k).
Proof.
  intros Ht. unfold item_or_new. destruct (t !! k) as [it|] eqn:Hk; simpl.
  - by apply (Ht k).
  - apply new_item_well_typed.
Qed.

Lemma table_well_typed_empty : table_well_typed ∅.
Proof. apply map_Forall_empty. Qed.

Lemma write_upserts (t : table) (agg : AggregatedObservation) (ttl_days : Z) :
  table_well_typed t →
  ∃ t', write_observation t agg ttl_days = Ok t'
        ∧ t' !! (pk agg, sk agg)
          = Some (upsert_effect (item_or_new t (pk agg, sk agg)) agg ttl_days)
        ∧ (∀ k, k ≠ (pk agg, sk agg) → t' !! k = t !! k)
        ∧ table_well_typed t'.
Proof.
  intros Ht. pose proof (item_or_new_well_typed t (pk agg, sk agg) Ht) as Hit.
  eexists. split; [by apply write_observation_effect|]. split_and!.
  - apply lookup_insert_eq.
  - intros k Hk. by apply lookup_insert_ne.
  - apply map_Forall_insert_2; [|done]. by apply upsert_effect_well_typed.
Qed.

(** X1. On a table whose items have the attribute types that the upsert
    expects, [write_observation] succeeds and changes one item only, the one
    under the record's key, by the five effects of an upsert: [last_seen] and
    [ttl] overwritten, [first_seen] set if absent, [call_count] incremented,
    each non-empty set united into the stored one.  The table it leaves is
    again one that the next write accepts. *)
Theorem write_observation_upserts (t : table) (agg : AggregatedObservation)
  (ttl_days : Z) :
  table_well_typed t →
  ∃ t', write_observation t agg ttl_days = Ok t'
        ∧ t' !! (pk agg, sk agg)
          = Some (upsert_effect (item_or_new t (pk agg, sk agg)) agg ttl_days)
        ∧ (∀ k, k ≠ (pk agg, sk agg) → t' !! k = t !! k)
        ∧ table_well_typed t'.
Proof. apply write_upserts. Qed.

Lemma stored_set_union (o : option attr) (s1 s2 : gset string) :
  o = stored_set s1 →
  (if truthy s2
   then Some (AttrSS (match o with Some (AttrSS s0) => s0 ∪ s2 | _ => s2 end))
   else o) = stored_set (s1 ∪ s2).
Proof.
  intros ->. unfold stored_set.
  destruct (truthy s1) eqn:H1, (truthy s2) eqn:H2, (truthy (s1 ∪ s2)) eqn:H3;
    rewrite ?truthy_spec, ?truthy_false in *; try done; try set_solver.
  - do 2 f_equal. set_solver.
  - do 2 f_equal. set_solver.
Qed.

(** X2. Two records with one key, written one after the other to an empty
    table, leave one item: its count is the sum of the two counts, each of
    its sets the union of the two sets (no attribute where both are empty),
    its [first_seen] that of the first record, its [last_seen] and [ttl]
    those of the second. *)
Theorem write_observation_accumulates
  (agg1 agg2 : AggregatedObservation) (ttl_days : Z) :
  (pk agg1, sk agg1) = (pk agg2, sk agg2) →
  ∃ (t1 t2 : table) (r : item),
    write_observation ∅ agg1 ttl_days = Ok t1
    ∧ write_observation t1 agg2 ttl_days = Ok t2
    ∧ t2 !! (pk agg1, sk agg1) = Some r
    ∧ size t2 = 1%nat
    ∧ r !! "call_count" = Some (AttrN (call_count agg1 + call_count agg2))
    ∧ r !! "request_fields"
      = stored_set (request_fields agg1 ∪ request_fields agg2)
    ∧ r !! "request_headers"
      = stored_set (request_headers agg1 ∪ request_headers agg2)
    ∧ r !! "query_params"
      = stored_set (query_params agg1 ∪ query_params agg2)
    ∧ r !! "response_codes"
      = stored_set (response_codes agg1 ∪ response_codes agg2)
    ∧ r !! "first_seen" = Some (AttrS (isoformat (first_seen agg1)))
    ∧ r !! "last_seen" = Some (AttrS (isoformat (last_seen agg2)))
    ∧ r !! "ttl" = Some (AttrN (ttl agg2 ttl_days)).
Proof.
  intros Hkey. set (k := (pk agg1, sk agg1)) in *.
  set (new := {[ "PK" := AttrS k.1; "SK" := AttrS k.2 ]} : item).
  set (r1 := upsert_effect new agg1 ttl_days).
  set (r2 := upsert_effect r1 agg2 ttl_days).
  assert (well_typed new) as Hnew by apply new_item_well_typed.
  assert (well_typed r1) as Hr1 by by apply upsert_effect_well_typed.
  exists (<[k := r1]> ∅), (<[k := r2]> (<[k := r1]> ∅)), r2.
  destruct (upsert_effect_scalars isoformat new agg1 ttl_days) as (_ & F1 & _ & C1).
  destruct (upsert_effect_sets isoformat new agg1 ttl_days)
    as (Srf1 & Srh1 & Sqp1 & Src1).
  destruct (upsert_effect_scalars isoformat r1 agg2 ttl_days) as (L2 & F2 & T2 & C2).
  destruct (upsert_effect_sets isoformat r1 agg2 ttl_days)
    as (Srf2 & Srh2 & Sqp2 & Src2).
  fold r1 in F1, C1, Srf1, Srh1, Sqp1, Src1.
  fold r1 r2 in L2, F2, T2, C2, Srf2, Srh2, Sqp2, Src2.
  change (new !! "first_seen") with (@None attr) in F1.
  change (new !! "call_count") with (@None attr) in C1.
  change (new !! "request_fields") with (@None attr) in Srf1.
  change (new !! "request_headers") with (@None attr) in Srh1.
  change (new !! "query_params") with (@None attr) in Sqp1.
  change (new !! "response_codes") with (@None attr) in Src1.
  split_and!.
  - rewrite write_observation_effect; rewrite item_or_new_empty; done.
  - rewrite write_observation_effect; rewrite <-Hkey; rewrite item_or_new_insert;
      done.
  - apply lookup_insert_eq.
  - rewrite insert_insert_eq, insert_empty. apply map_size_singleton.
  - by rewrite C2, C1.
  - rewrite Srf2. by apply stored_set_union.
  - rewrite Srh2. by apply stored_set_union.
  - rewrite Sqp2. by apply stored_set_union.
  - rewrite Src2. by apply stored_set_union.
  - by rewrite F2, F1.
  - exact L2.
  - exact T2.
Qed.

Lemma set_step_swap (o : option attr) (s1 s2 : gset string) :
  set_or_absent o →
  (if truthy s2
   then Some (AttrSS (match (if truthy s1
                             then Some (AttrSS (match o with
                                                | Some (AttrSS s0) => s0 ∪ s1
                                                | _ => s1 end))
                             else o) with
                      | Some (AttrSS s0) => s0 ∪ s2 | _ => s2 end))
   else (if truthy s1
         then Some (AttrSS (match o with
                            | Some (AttrSS s0) => s0 ∪ s1 | _ => s1 end))
         else o))
  = (if truthy s1
     then Some (AttrSS (match (if truthy s2
                               then Some (AttrSS (match o with
                                                  | Some (AttrSS s0) => s0 ∪ s2
                                                  | _ => s2 end))
                               else o) with
                        | Some (AttrSS s0) => s0 ∪ s1 | _ => s1 end))
     else (if truthy s2
           then Some (AttrSS (match o with
                              | Some (AttrSS s0) => s0 ∪ s2 | _ => s2 end))
           else o)).
Proof.
  intros Ho. destruct o as [[]|], (truthy s1), (truthy s2); try done;
    do 2 f_equal; set_solver.
Qed.

Lemma same_totals_refl r : same_totals r r.
Proof. by split_and!. Qed.

Lemma upsert_effect_swap (old : item) a1 a2 d :
  well_typed old →
  same_totals (upsert_effect (upsert_effect old a1 d) a2 d)
    (upsert_effect (upsert_effect old a2 d) a1 d).
Proof.
  intros (Hn & Hrf & Hrh & Hqp & Hrc).
  destruct (upsert_effect_scalars isoformat old a1 d) as (_ & _ & _ & C1).
  destruct (upsert_effect_scalars isoformat old a2 d) as (_ & _ & _ & C2).
  destruct (upsert_effect_sets isoformat old a1 d) as (F1 & H1 & Q1 & R1).
  destruct (upsert_effect_sets isoformat old a2 d) as (F2 & H2 & Q2 & R2).
  destruct (upsert_effect_scalars isoformat (upsert_effect old a1 d) a2 d)
    as (_ & _ & _ & C12).
  destruct (upsert_effect_scalars isoformat (upsert_effect old a2 d) a1 d)
    as (_ & _ & _ & C21).
  destruct (upsert_effect_sets isoformat (upsert_effect old a1 d) a2 d)
    as (F12 & H12 & Q12 & R12).
  destruct (upsert_effect_sets isoformat (upsert_effect old a2 d) a1 d)
    as (F21 & H21 & Q21 & R21).
  unfold same_totals.
  rewrite C12, C21, F12, F21, H12, H21, Q12, Q21, R12, R21.
  rewrite C1, C2, F1, F2, H1, H2, Q1, Q2, R1, R2.
  split_and!; [|by apply set_step_swap..].
  destruct (old !! "call_count") as [[]|]; try done; do 2 f_equal; lia.
Qed.

(** X3. Writes commute.  From a well-typed table, two records written in
    either order are both accepted; the two tables hold the same keys, and
    under each key items with the same count and the same four sets; and
    they are the same table when the two records have different keys. *)
Theorem write_observation_commutes (t : table)
  (agg1 agg2 : AggregatedObservation) (ttl_days : Z) :
  table_well_typed t →
  ∃ t12 t21 : table,
    rbind (write_observation t agg1 ttl_days)
      (λ t', write_observation t' agg2 ttl_days) = Ok t12
    ∧ rbind (write_observation t agg2 ttl_days)
        (λ t', write_observation t' agg1 ttl_days) = Ok t21
    ∧ dom t12 = dom t21
    ∧ (∀ k r r', t12 !! k = Some r → t21 !! k = Some r' → same_totals r r')
    ∧ ((pk agg1, sk agg1) ≠ (pk agg2, sk agg2) → t12 = t21).
Proof.
  intros Ht.
  set (k1 := (pk agg1, sk agg1)). set (k2 := (pk agg2, sk agg2)).
  destruct (write_upserts t agg1 ttl_days Ht) as (t1 & W1 & L1 & O1 & T1).
  destruct (write_upserts t agg2 ttl_days Ht) as (t2 & W2 & L2 & O2 & T2).
  destruct (write_upserts t1 agg2 ttl_days T1)
    as (t12 & W12 & L12 & O12 & _).
  destruct (write_upserts t2 agg1 ttl_days T2)
    as (t21 & W21 & L21 & O21 & _).
  fold k1 k2 in L1, O1, L2, O2, L12, O12, L21, O21.
  exists t12, t21. rewrite W1, W2. cbn [rbind]. clearbody k1 k2.
  assert (∀ k, k ≠ k1 → k ≠ k2 → t12 !! k = t21 !! k) as Hother.
  { intros k Hk1 Hk2. by rewrite O12, O1, O21, O2. }
  assert (k1 ≠ k2 → ∀ k, t12 !! k = t21 !! k) as Hdiff.
  { intros Hne k. destruct (decide (k = k1)) as [->|Hk1];
      [|destruct (decide (k = k2)) as [->|Hk2]; [|by apply Hother]].
    - rewrite O12, L1, L21 by done. unfold item_or_new. by rewrite O2.
    - rewrite L12, O21, L2 by done. unfold item_or_new. by rewrite O1. }
  assert (∀ k r r', t12 !! k = Some r → t21 !! k = Some r' → same_totals r r')
    as Htot.
  { intros k r r' Hr Hr'. destruct (decide (k1 = k2)) as [Heq|Hne].
    - subst k2. destruct (decide (k = k1)) as [->|Hk1].
      + rewrite L12 in Hr. rewrite L21 in Hr'.
        injection Hr as <-. injection Hr' as <-.
        unfold item_or_new at 1 2. rewrite L1, L2. simpl.
        apply upsert_effect_swap. by apply item_or_new_well_typed.
      + rewrite Hother in Hr by congruence. rewrite Hr in Hr'.
        injection Hr' as <-. apply same_totals_refl.
    - rewrite Hdiff in Hr by done. rewrite Hr in Hr'. injection Hr' as <-.
      apply same_totals_refl. }
  split_and!; [done|done| |done|].
  - apply set_eq. intros k. rewrite !elem_of_dom.
    destruct (decide (k = k1)) as [->|Hk1].
    + destruct (decide (k1 = k2)) as [Heq|Hne].
      * subst k2. rewrite L12, L21. split; eauto.
      * rewrite O12, L1, L21 by done. split; eauto.
    + destruct (decide (k = k2)) as [->|Hk2].
      * rewrite L12, O21, L2 by done. split; eauto.
      * by rewrite Hother.
  - intros Hne. apply map_eq. by apply Hdiff.
Qed.

End store.
End StoreFacts.

Module KeyFacts.
Import Aggregator Dynamo Transformer.

Lemma append_nil_r (s : string) : s +:+ "" = s.
Proof.
  induction s as [|c s IH]; [done|].
  change (String c (s +:+ "") = String c s). by rewrite IH.
Qed.

Lemma append_assoc (s1 s2 s3 : string) : (s1 +:+ s2) +:+ s3 = s1 +:+ s2 +:+ s3.
Proof.
  induction s1 as [|c s1 IH]; [done|].
  change (String c ((s1 +:+ s2) +:+ s3) = String c (s1 +:+ s2 +:+ s3)).
  by rewrite IH.
Qed.

Lemma split_char_free sep n cur s :
  mentions sep s = false → split_char sep n cur s = [cur +:+ s].
Proof.
  revert n cur. induction s as [|c s IH]; intros n cur Hs; cbn [split_char].
  - by rewrite append_nil_r.
  - cbn [mentions] in Hs. apply orb_false_iff in Hs as [Hc Hs].
    rewrite Ascii.eqb_sym, Hc. destruct n; rewrite IH, append_assoc; done.
Qed.

Lemma split_char_zero sep cur s : split_char sep 0 cur s = [cur +:+ s].
Proof.
  revert cur. induction s as [|c s IH]; intros cur; cbn [split_char].
  - by rewrite append_nil_r.
  - by rewrite IH, append_assoc.
Qed.

Lemma split_char_first sep n cur s rest :
  mentions sep s = false →
  split_char sep (S n) cur (s +:+ String sep rest)
  = (cur +:+ s) :: split_char sep n "" rest.
Proof.
  revert cur. induction s as [|c s IH]; intros cur Hs.
  - change (split_char sep (S n) cur (String sep rest)
            = (cur +:+ "") :: split_char sep n "" rest).
    cbn [split_char]. by rewrite Ascii.eqb_refl, append_nil_r.
  - change (split_char sep (S n) cur (String c (s +:+ String sep rest))
            = (cur +:+ String c s) :: split_char sep n "" rest).
    cbn [split_char]. cbn [mentions] in Hs. apply orb_false_iff in Hs as [Hc Hs].
    rewrite Ascii.eqb_sym, Hc. rewrite IH, append_assoc; done.
Qed.

Lemma parse_sk_sk (agg : AggregatedObservation) :
  delimiter_free agg →
  parse_sk (sk agg) = Some (caller agg, method agg, path_template agg).
Proof.
  intros [Hc Hm]. unfold parse_sk, sk.
  change ("CALLER#" +:+ caller agg +:+ "#" +:+ method agg +:+ "#" +:+ path_template agg)
    with ("CALLER" +:+ String "#" (caller agg +:+ String "#"
            (method agg +:+ String "#" (path_template agg)))).
  rewrite (split_char_first "#" 2 "" "CALLER") by done.
  rewrite (split_char_first "#" 1 "" (caller agg)) by done.
  rewrite (split_char_first "#" 0 "" (method agg)) by done.
  by rewrite split_char_zero.
Qed.

(** X4. The sort key is read back as it was written: when neither the
    caller nor the method contains the delimiter [#], cutting the key that
    [write_observation] builds at its first three [#], as [transform_items]
    does, gives back the caller, the method and the path template (which may
    contain [#]). *)
Theorem parse_sk_round_trip (agg : AggregatedObservation) :
  delimiter_free agg →
  parse_sk (sk agg) = Some (caller agg, method agg, path_template agg).
Proof. apply parse_sk_sk. Qed.

Lemma parse_sk_round_trip_witness :
  parse_sk (sk (mkAggregated "my-api" "checkout" "POST" "/api/orders#top"
                  ∅ ∅ ∅ ∅ 1 (Datetime 0 0) (Datetime 0 0)))
  = Some ("checkout", "POST", "/api/orders#top").
Proof.
  apply (parse_sk_round_trip (mkAggregated "my-api" "checkout" "POST"
           "/api/orders#top" ∅ ∅ ∅ ∅ 1 (Datetime 0 0) (Datetime 0 0))).
  split; reflexivity.
Defined.

(** A caller that contains the delimiter is read back wrongly. *)
Example parse_sk_delimiter_in_caller :
  parse_sk (sk (mkAggregated "my-api" "team#a" "GET" "/p"
                  ∅ ∅ ∅ ∅ 1 (Datetime 0 0) (Datetime 0 0)))
  = Some ("team", "a", "GET#/p").
Proof. reflexivity. Qed.

Lemma pk_inj a b : pk a = pk b → service_name a = service_name b.
Proof. unfold pk. intros H. by simplify_eq/=. Qed.

Lemma store_key_inj (a b : AggregatedObservation) :
  delimiter_free a → delimiter_free b →
  (pk a, sk a) = (pk b, sk b) → agg_key a = agg_key b.
Proof.
  intros Ha Hb Heq.
  pose proof (f_equal fst Heq) as Hpk. pose proof (f_equal snd Heq) as Hsk.
  cbn [fst snd] in Hpk, Hsk. apply pk_inj in Hpk.
  pose proof (parse_sk_sk a Ha) as Pa.
  pose proof (parse_sk_sk b Hb) as Pb.
  rewrite Hsk, Pb in Pa. injection Pa as H1 H2 H3. unfold agg_key. congruence.
Qed.

(** X5. Records with different aggregation keys get different store keys,
    provided that their callers and methods are free of the delimiter. *)
Theorem store_key_injective (a b : AggregatedObservation) :
  delimiter_free a → delimiter_free b →
  (pk a, sk a) = (pk b, sk b) → agg_key a = agg_key b.
Proof. apply store_key_inj. Qed.

Lemma store_key_injective_witness :
  agg_key (mkAggregated "my-api" "checkout" "POST" "/p" {["a"]} ∅ ∅ ∅ 1
             (Datetime 0 0) (Datetime 0 0))
  = agg_key (mkAggregated "my-api" "checkout" "POST" "/p" ∅ ∅ ∅ {["200"]} 7
               (Datetime 5 0) (Datetime 9 0)).
Proof.
  apply store_key_injective; [split; reflexivity|split; reflexivity|reflexivity].
Defined.

(** Without that proviso two different keys can collide in the store. *)
Example store_key_collision :
  let a := mkAggregated "s" "x#GET" "GET" "/p" ∅ ∅ ∅ ∅ 1 (Datetime 0 0) (Datetime 0 0) in
  let b := mkAggregated "s" "x" "GET" "GET#/p" ∅ ∅ ∅ ∅ 1 (Datetime 0 0) (Datetime 0 0) in
  (pk a, sk a) = (pk b, sk b) ∧ agg_key a ≠ agg_key b.
Proof. split; [reflexivity|discriminate]. Qed.

End KeyFacts.

Module FlushFacts.
Import Aggregator Dynamo AggregatorFacts DynamoFacts.

Section flush.
Variable isoformat : datetime → string.

Abbreviation upsert_effect := (Dynamo.upsert_effect isoformat).

Lemma run_writes_lookup (order : list AggregatedObservation) (t : table)
  (w : nat) (ttl_days : Z) :
  table_well_typed t →
  NoDup ((λ a, (pk a, sk a)) <$> order) →
  ∃ t', fold_left (write_logged isoformat ttl_days) order (t, w) = (t', w)
        ∧ table_well_typed t'
        ∧ (∀ agg, agg ∈ order →
             t' !! (pk agg, sk agg)
             = Some (upsert_effect (item_or_new t (pk agg, sk agg)) agg ttl_days))
        ∧ (∀ k, k ∉ (λ a, (pk a, sk a)) <$> order → t' !! k = t !! k).
Proof.
  revert t. induction order as [|a rest IH]; intros t Ht Hnd.
  - exists t. split_and!; [done|done|by intros ? ?%elem_of_nil|done].
  - rewrite fmap_cons in Hnd. apply NoDup_cons in Hnd as [Hnotin Hnd].
    destruct (StoreFacts.write_upserts isoformat t a ttl_days Ht)
      as (t1 & W & L & O & T1).
    destruct (IH t1 T1 Hnd) as (t' & Hrun & T' & Hin & Hout).
    exists t'. cbn [fold_left]. unfold write_logged at 2. cbn [fst snd].
    rewrite W. split_and!; [exact Hrun|exact T'|..].
    + intros agg [->|Hagg]%elem_of_cons.
      * rewrite Hout by exact Hnotin. exact L.
      * rewrite Hin by exact Hagg. unfold item_or_new. rewrite O; [reflexivity|].
        intros Heq. apply Hnotin. rewrite <-Heq.
        apply list_elem_of_fmap. exists agg. split; [reflexivity|assumption].
    + intros k [Hk Hrest]%not_elem_of_cons. rewrite Hout by exact Hrest.
      apply O, Hk.
Qed.

Lemma aggregate_key_in l agg :
  agg ∈ aggregate l → ∃ obs, obs ∈ l ∧ obs_key obs = agg_key agg.
Proof.
  intros Hin%elem_of_aggregate. rewrite getitem_aggregate_from in Hin.
  assert (with_key (agg_key agg) l ≠ []) as Hne.
  { apply summary_is_Some. simpl in Hin. by rewrite Hin. }
  apply with_key_nonempty, list_elem_of_fmap in Hne as (obs & ? & ?). eauto.
Qed.

Lemma aggregate_call_count l agg :
  agg ∈ aggregate l →
  call_count agg = Z.of_nat (length (with_key (agg_key agg) l)).
Proof.
  intros Hin%elem_of_aggregate. rewrite getitem_aggregate_from in Hin.
  simpl in Hin. rewrite <-summary_call_count. by rewrite Hin.
Qed.

Lemma aggregate_delimiter_free l agg :
  Forall (λ obs, mentions "#" (o_caller obs) = false
                 ∧ mentions "#" (o_method obs) = false) l →
  agg ∈ aggregate l → delimiter_free agg.
Proof.
  intros Hall (obs & Hobs & Hkey)%aggregate_key_in.
  rewrite Forall_forall in Hall. specialize (Hall obs Hobs).
  unfold obs_key, agg_key in Hkey. injection Hkey as _ Hc Hm _.
  unfold delimiter_free. by rewrite <-Hc, <-Hm.
Qed.

Lemma aggregate_store_keys_NoDup l :
  Forall (λ obs, mentions "#" (o_caller obs) = false
                 ∧ mentions "#" (o_method obs) = false) l →
  NoDup ((λ a, (pk a, sk a)) <$> aggregate l).
Proof.
  intros Hall. apply NoDup_fmap_2_strong.
  - intros a b Ha Hb Heq.
    assert (agg_key a = agg_key b) as Hk.
    { apply KeyFacts.store_key_inj; [..|exact Heq];
        by eapply aggregate_delimiter_free. }
    apply elem_of_aggregate in Ha, Hb. rewrite Hk in Ha. congruence.
  - pose proof (aggregate_from_wf [] l wf_nil) as [Hnd _].
    rewrite <-aggregate_keys in Hnd. by apply NoDup_fmap_1 in Hnd.
Qed.

(** X6. A flush does not depend on the order in which the pool's writes
    reach the store.  When the callers and methods of the batch are free of
    the delimiter [#] and the table is well typed, the writes of
    [flush_observations], taking effect in any order, all succeed (no
    warning is logged) and leave the same table: each record of the batch
    upserted under its key, the count stored there raised by the number of
    the batch's observations with that key, and every other item as it
    was. *)
Theorem flush_observations_any_order
  (observations : list Observation) (t : table) (ttl_days : Z)
  (order : list AggregatedObservation) :
  Forall (λ obs, mentions "#" (o_caller obs) = false
                 ∧ mentions "#" (o_method obs) = false) observations →
  table_well_typed t →
  order ≡ₚ aggregate observations →
  ∃ t',
    run_writes isoformat order t ttl_days = (t', 0%nat)
    ∧ flush_observations isoformat observations t ttl_days = (t', 0%nat)
    ∧ (∀ agg, agg ∈ aggregate observations →
         ∃ r, t' !! (pk agg, sk agg) = Some r
              ∧ r = upsert_effect (item_or_new t (pk agg, sk agg)) agg ttl_days
              ∧ r !! "call_count"
                = Some (AttrN
                    (match item_or_new t (pk agg, sk agg) !! "call_count" with
                     | Some (AttrN m) => m | _ => 0 end
                     + Z.of_nat (length (with_key (agg_key agg) observations)))))
    ∧ (∀ k, k ∉ (λ a, (pk a, sk a)) <$> aggregate observations →
            t' !! k = t !! k).
Proof.
  intros Hfree Ht Hperm.
  pose proof (aggregate_store_keys_NoDup observations Hfree) as Hnd.
  destruct (run_writes_lookup (aggregate observations) t 0 ttl_days Ht Hnd)
    as (t' & Hrun & T' & Hin & Hout).
  assert (NoDup ((λ a, (pk a, sk a)) <$> order)) as Hnd' by (by rewrite Hperm).
  destruct (run_writes_lookup order t 0 ttl_days Ht Hnd')
    as (t'' & Hrun' & _ & Hin' & Hout').
  assert (t'' = t') as ->.
  { apply map_eq. intros k.
    destruct (decide (k ∈ (λ a, (pk a, sk a)) <$> aggregate observations))
      as [Hk|Hk].
    - apply list_elem_of_fmap in Hk as (agg & -> & Hagg).
      rewrite Hin by exact Hagg. apply Hin'. by rewrite Hperm.
    - rewrite Hout by exact Hk. apply Hout'. by rewrite Hperm. }
  exists t'. split_and!.
  - exact Hrun'.
  - unfold flush_observations, run_writes.
    destruct (aggregate observations); [|exact Hrun].
    cbn [fold_left] in Hrun. exact Hrun.
  - intros agg Hagg. eexists. split; [apply Hin, Hagg|]. split; [reflexivity|].
    destruct (upsert_effect_scalars isoformat
                (item_or_new t (pk agg, sk agg)) agg ttl_days) as (_ & _ & _ & ->).
    rewrite (aggregate_call_count _ _ Hagg).
    pose proof (StoreFacts.item_or_new_well_typed t (pk agg, sk agg) Ht)
      as (Hn & _).
    destruct (item_or_new t (pk agg, sk agg) !! "call_count") as [[]|];
      [reflexivity|destruct Hn..|reflexivity].
  - exact Hout.
Qed.

End flush.
End FlushFacts.

Module BufferExtras.
Import Buffer BufferFacts.

Lemma add_effect (cfg : config) (obs : Observation) (s : state) :
  _lock s = false →
  ∃ s', add cfg obs s = Return tt s'
        ∧ _lock s' = false ∧ calls s' = calls s ∧ warnings s' = warnings s
        ∧ clock s' = clock s
        ∧ ((_observations s' = _observations s ++ [obs]
            ∧ threads s' = threads s ∧ _last_flush s' = _last_flush s)
           ∨ (_observations s' = []
              ∧ threads s' = threads s ++ [_observations s ++ [obs]]
              ∧ _last_flush s' = clock s)).
Proof.
  intros Hlock. rewrite add_unlocked by done. eexists. split; [done|].
  case_match; cbn; split_and!; auto.
Qed.

(** X7. [add] never runs the flush function on its caller's thread: from
    a free lock it returns whatever the flush function would do (return,
    raise, sleep), with the lock free again and no call of the flush
    function made.  Either the observation is now the last one buffered, or
    the whole buffer, the observation last, has left as one batch handed to
    a new thread, and the flush time is the clock's reading. *)
Theorem add_never_calls_flush_fn (cfg : config) (obs : Observation) (s : state) :
  _lock s = false →
  ∃ s', add cfg obs s = Return tt s'
        ∧ _lock s' = false ∧ calls s' = calls s ∧ warnings s' = warnings s
        ∧ clock s' = clock s
        ∧ ((_observations s' = _observations s ++ [obs]
            ∧ threads s' = threads s ∧ _last_flush s' = _last_flush s)
           ∨ (_observations s' = []
              ∧ threads s' = threads s ++ [_observations s ++ [obs]]
              ∧ _last_flush s' = clock s)).
Proof. apply add_effect. Qed.

Lemma add_never_calls_flush_fn_witness :
  ∃ s', add (defaults (λ _, Sleeps)) (sample "checkout" 0) (init 0) = Return tt s'
        ∧ _lock s' = false ∧ calls s' = calls (init 0)
        ∧ warnings s' = warnings (init 0)
        ∧ clock s' = clock (init 0)
        ∧ ((_observations s' = _observations (init 0) ++ [sample "checkout" 0]
            ∧ threads s' = threads (init 0)
            ∧ _last_flush s' = _last_flush (init 0))
           ∨ (_observations s' = []
              ∧ threads s'
                = threads (init 0)
                  ++ [_observations (init 0) ++ [sample "checkout" 0]]
              ∧ _last_flush s' = clock (init 0))).
Proof.
  apply (add_never_calls_flush_fn (defaults (λ _, Sleeps))
           (sample "checkout" 0) (init 0)).
  reflexivity.
Defined.

(** X8. The buffer is bounded: with [max_size] at least 1, whenever [add]
    returns, fewer than [max_size] observations are buffered - whatever was
    buffered before. *)
Theorem add_bounds_buffer (cfg : config) (obs : Observation) (s s' : state) :
  1 ≤ max_size cfg →
  _lock s = false →
  add cfg obs s = Return tt s' →
  Z.of_nat (length (_observations s')) < max_size cfg.
Proof.
  intros Hmax Hlock. rewrite add_unlocked by done. intros [= <-].
  case_bool_decide as Hsize; cbn -[length Z.of_nat]; [cbn; lia|].
  case_bool_decide; cbn -[length Z.of_nat]; [cbn; lia|lia].
Qed.

Lemma add_bounds_buffer_witness :
  Z.of_nat (length (_observations
    (State [] 0 false 0 [] 0 [[sample "a" 0; sample "b" 1; sample "c" 2]])))
  < max_size (Config (λ _, Returns) 3 30).
Proof.
  apply (add_bounds_buffer (Config (λ _, Returns) 3 30) (sample "c" 2)
           (State [sample "a" 0; sample "b" 1] 0 false 0 [] 0 [])).
  - simpl. lia.
  - reflexivity.
  - reflexivity.
Defined.

(** X9. A synchronous flush takes everything: when the flush function
    returns or raises an [Exception] on the buffered batch, [flush] returns
    from a free lock with the buffer empty, the flush time set to the
    clock's reading, no thread started, and the whole buffer passed to the
    flush function as one batch in append order - except that an empty
    buffer makes no call at all. *)
Theorem flush_takes_everything (cfg : config) (s : state) :
  _lock s = false →
  (_flush_fn cfg (_observations s) = Returns
   ∨ ∃ name, _flush_fn cfg (_observations s) = Raises (ExceptionE name)) →
  ∃ s', flush cfg s = Return tt s'
        ∧ _lock s' = false
        ∧ _observations s' = []
        ∧ _last_flush s' = clock s
        ∧ threads s' = threads s
        ∧ calls s' = (if nonempty (_observations s)
                      then calls s ++ [_observations s] else calls s).
Proof.
  intros Hlock Hfn. rewrite flush_unlocked by done.
  destruct (_observations s) as [|o buf]; [by eexists|].
  destruct Hfn as [->|[name ->]]; by eexists.
Qed.

Lemma flush_takes_everything_witness :
  ∃ s', flush (defaults (λ _, Returns))
          (State [sample "a" 0; sample "b" 1] 0 false 7 [] 0 []) = Return tt s'
        ∧ _lock s' = false
        ∧ _observations s' = []
        ∧ _last_flush s' = 7
        ∧ threads s' = []
        ∧ calls s' = [[sample "a" 0; sample "b" 1]].
Proof.
  apply (flush_takes_everything (defaults (λ _, Returns))
           (State [sample "a" 0; sample "b" 1] 0 false 7 [] 0 [])).
  - reflexivity.
  - left. reflexivity.
Defined.

(** X10. What [except Exception] does not catch leaves [flush]: when the
    flush function raises an exception that is no [Exception] (such as
    [KeyboardInterrupt]) on a non-empty buffer, [flush] raises it to its
    caller; the lock is released on the way out, the batch is gone from the
    buffer, and no warning is logged. *)
Theorem flush_propagates_base_exception (cfg : config) (s : state) (name : string) :
  _lock s = false →
  _observations s ≠ [] →
  _flush_fn cfg (_observations s) = Raises (BaseExceptionE name) →
  ∃ s', flush cfg s = Raise (BaseExceptionE name) s'
        ∧ _lock s' = false
        ∧ _observations s' = []
        ∧ warnings s' = warnings s
        ∧ calls s' = calls s ++ [_observations s].
Proof.
  intros Hlock Hne Hfn. rewrite flush_unlocked by done.
  destruct (_observations s) as [|o buf]; [done|]. rewrite Hfn. by eexists.
Qed.

Lemma flush_propagates_base_exception_witness :
  ∃ s', flush (defaults (λ _, Raises (BaseExceptionE "KeyboardInterrupt")))
          (State [sample "a" 0] 0 false 7 [] 0 [])
        = Raise (BaseExceptionE "KeyboardInterrupt") s'
        ∧ _lock s' = false
        ∧ _observations s' = []
        ∧ warnings s' = 0%nat
        ∧ calls s' = [[sample "a" 0]].
Proof.
  apply (flush_propagates_base_exception
           (defaults (λ _, Raises (BaseExceptionE "KeyboardInterrupt")))
           (State [sample "a" 0] 0 false 7 [] 0 []) "KeyboardInterrupt").
  - reflexivity.
  - discriminate.
  - reflexivity.
Defined.

(** X11. Batches cut the stream of observations without reordering it:
    after any number of [add] calls, the batches handed to threads, in the
    order in which the threads were started, followed by the buffer, spell
    out what was there before followed by the observations added, in the
    order of the calls. *)
Theorem add_keeps_order (cfg : config) (observations : list Observation)
  (s : state) :
  _lock s = false →
  ∃ s', run_events cfg (CallAdd <$> observations) s = Return tt s'
        ∧ _lock s' = false
        ∧ concat (threads s') ++ _observations s'
          = concat (threads s) ++ _observations s ++ observations.
Proof.
  revert s. induction observations as [|obs l IH]; intros s Hlock.
  - exists s. by rewrite app_nil_r.
  - destruct (add_effect cfg obs s Hlock)
      as (s1 & Hadd & Hl1 & _ & _ & _ & Hcases).
    destruct (IH s1 Hl1) as (s' & Hrun & Hl' & Horder).
    exists s'. rewrite fmap_cons. cbn [run_events run_event].
    unfold bind at 1. rewrite Hadd. split_and!; [done|done|].
    rewrite Horder.
    destruct Hcases as [(-> & -> & _)|(-> & -> & _)].
    + by rewrite <-!app_assoc.
    + rewrite concat_app. cbn. by rewrite !app_nil_r, <-!app_assoc.
Qed.

Lemma add_keeps_order_witness :
  ∃ s', run_events (Config (λ _, Returns) 2 30)
          (CallAdd <$> [sample "a" 0; sample "b" 1; sample "c" 2]) (init 0)
        = Return tt s'
        ∧ _lock s' = false
        ∧ concat (threads s') ++ _observations s'
          = concat (threads (init 0)) ++ _observations (init 0)
            ++ [sample "a" 0; sample "b" 1; sample "c" 2].
Proof.
  apply (add_keeps_order (Config (λ _, Returns) 2 30)
           [sample "a" 0; sample "b" 1; sample "c" 2] (init 0)).
  reflexivity.
Defined.

End BufferExtras.

Module MachineExtras.
Import Buffer BufferFacts MachineFacts.

(** X12. Mutual exclusion: in every state that concurrent callers can
    reach, at most one thread is inside a [with self._lock] block, and the
    lock is held exactly when one is. *)
Theorem at_most_one_holder (cfg : config) (c : system) :
  reachable cfg c →
  (holders (pool c) ≤ 1)%nat
  ∧ (_lock (mem c) = true ↔ holders (pool c) = 1%nat)
  ∧ ∀ i j p q, pool c !! i = Some p → pool c !! j = Some q →
               critical p = true → critical q = true → i = j.
Proof.
  intros (Hlock & _ & _)%invariant_reachable. split_and!.
  - destruct (_lock (mem c)); lia.
  - destruct (_lock (mem c)); split; try done; lia.
  - assert (holders (pool c) ≤ 1)%nat as Hle by (destruct (_lock (mem c)); lia).
    clear Hlock. intros i j p q Hi Hj Hp Hq.
    destruct (decide (i = j)) as [|Hne]; [done|exfalso].
    revert i j Hi Hj Hne Hle. generalize (pool c) as l.
    assert (∀ l i j, (i < j)%nat → l !! i = Some p → l !! j = Some q →
                     (2 ≤ holders l)%nat) as Hlt.
    { intros l i j Hij Hi Hj.
      apply list_elem_of_split_length in Hi as (l1 & l2 & -> & ->).
      rewrite lookup_app_r in Hj by lia.
      replace (j - length l1)%nat with (S (j - S (length l1))) in Hj by lia.
      cbn in Hj. pose proof (holders_lookup _ _ _ Hj Hq).
      rewrite holders_app, holders_cons, Hp. lia. }
    intros l i j Hi Hj Hne Hle.
    assert (∀ l i j, (i < j)%nat → l !! i = Some q → l !! j = Some p →
                     (2 ≤ holders l)%nat) as Hlt'.
    { intros l' i' j' Hij Hi' Hj'.
      apply list_elem_of_split_length in Hi' as (l1 & l2 & -> & ->).
      rewrite lookup_app_r in Hj' by lia.
      replace (j' - length l1)%nat with (S (j' - S (length l1))) in Hj' by lia.
      cbn in Hj'. pose proof (holders_lookup _ _ _ Hj' Hp).
      rewrite holders_app, holders_cons, Hq. lia. }
    destruct (decide (i < j)%nat).
    + pose proof (Hlt l i j ltac:(lia) Hi Hj). lia.
    + pose proof (Hlt' l j i ltac:(lia) Hj Hi). lia.
Qed.

Lemma at_most_one_holder_witness :
  (holders (pool flush_asleep) ≤ 1)%nat
  ∧ (_lock (mem flush_asleep) = true ↔ holders (pool flush_asleep) = 1%nat)
  ∧ ∀ i j p q, pool flush_asleep !! i = Some p → pool flush_asleep !! j = Some q →
               critical p = true → critical q = true → i = j.
Proof.
  apply (at_most_one_holder (defaults (λ _, Sleeps)) flush_asleep).
  apply flush_asleep_reachable.
Defined.

Lemma step_last cfg s l p p' s' a :
  tstep cfg p s = Some (p', s', []) →
  step cfg (System s (l ++ [p]) a) (System s' (l ++ [p']) a).
Proof.
  intros Hstep.
  replace (System s' (l ++ [p']) a)
    with (System s' (<[length l := p']> (pool (System s (l ++ [p]) a)) ++ [])
            (added (System s (l ++ [p]) a))).
  - eapply step_thread; [|exact Hstep]. cbn [pool]. apply list_lookup_middle. done.
  - cbn [pool added]. rewrite app_nil_r, insert_app_r_alt, Nat.sub_diag by done.
    done.
Qed.

Lemma quiescent_holders l : Forall (λ p, over p = true) l → holders l = 0%nat.
Proof.
  induction 1 as [|p l Hp _ IH]; [done|]. rewrite holders_cons, IH.
  by destruct p.
Qed.

Lemma quiescent_snoc l p :
  Forall (λ p, over p = true) l → over p = true →
  Forall (λ p, over p = true) (l ++ [p]).
Proof. intros. apply Forall_app. split; [done|]. by constructor. Qed.

(** One statement of the last thread of the pool. *)
Ltac last_thread_moves :=
  eapply rtc_l; [apply step_last; cbn; reflexivity|]; cbn.

(** X13. A last [flush] delivers what is left.  From any reachable state
    in which every call and thread is over, a call of [flush] whose flush
    function does not sleep on the buffered batch can run to its end; then
    the buffer is empty and the observations passed to the flush function
    are exactly those handed to [add], each once. *)
Theorem final_flush_delivers_everything (cfg : config) (c : system) :
  reachable cfg c →
  quiescent c →
  _flush_fn cfg (_observations (mem c)) ≠ Sleeps →
  ∃ c', rtc (step cfg) c c'
        ∧ quiescent c'
        ∧ added c' = added c
        ∧ _observations (mem c') = []
        ∧ delivered c' ≡ₚ added c.
Proof.
  intros Hreach Hq Hfn.
  assert (_lock (mem c) = false) as Hlock.
  { apply invariant_reachable in Hreach as (Hl & _).
    rewrite (quiescent_holders _ Hq) in Hl. by destruct (_lock (mem c)). }
  assert (∃ c', rtc (step cfg) c c' ∧ quiescent c' ∧ added c' = added c
                ∧ _observations (mem c') = []) as (c' & Hsteps & Hq' & Ha & Hempty).
  { destruct c as [s l a]. cbn [mem pool added] in *. unfold quiescent in *.
    cbn [pool] in *. destruct s as [buf last lk now cs ws ts].
    cbn in Hlock, Hfn. subst lk.
    destruct buf as [|o buf].
    - eexists. split.
      + eapply rtc_l; [apply step_call_flush|]. cbn [mem pool added].
        do 6 last_thread_moves. apply rtc_refl.
      + cbn. split_and!; [by apply quiescent_snoc|done|done].
    - destruct (_flush_fn cfg (o :: buf)) as [|[name|name]|] eqn:Hout; [..|done].
      + eexists. split.
        * eapply rtc_l; [apply step_call_flush|]. cbn [mem pool added].
          do 5 last_thread_moves.
          eapply rtc_l; [apply step_last; cbn; rewrite Hout; reflexivity|].
          last_thread_moves. apply rtc_refl.
        * cbn. split_and!; [by apply quiescent_snoc|done|done].
      + eexists. split.
        * eapply rtc_l; [apply step_call_flush|]. cbn [mem pool added].
          do 5 last_thread_moves.
          eapply rtc_l; [apply step_last; cbn; rewrite Hout; reflexivity|].
          do 2 last_thread_moves. apply rtc_refl.
        * cbn. split_and!; [by apply quiescent_snoc|done|done].
      + eexists. split.
        * eapply rtc_l; [apply step_call_flush|]. cbn [mem pool added].
          do 5 last_thread_moves.
          eapply rtc_l; [apply step_last; cbn; rewrite Hout; reflexivity|].
          last_thread_moves. apply rtc_refl.
        * cbn. split_and!; [by apply quiescent_snoc|done|done]. }
  exists c'. split_and!; [done..|].
  assert (reachable cfg c') as Hreach'.
  { destruct Hreach as [t0 Hr]. exists t0. by etrans. }
  apply invariant_reachable in Hreach' as (_ & _ & Hperm).
  rewrite <-Ha, Hperm, Hempty, quiescent_in_flight by done. done.
Qed.

Lemma final_flush_delivers_everything_witness :
  ∃ c', rtc (step (defaults (λ _, Returns))) after_one_add c'
        ∧ quiescent c'
        ∧ added c' = added after_one_add
        ∧ _observations (mem c') = []
        ∧ delivered c' ≡ₚ added after_one_add.
Proof.
  apply (final_flush_delivers_everything (defaults (λ _, Returns)) after_one_add).
  - apply add_alone_reachable.
  - repeat constructor.
  - discriminate.
Defined.

(** X14. The statements add up to the methods.  A call of [add] that runs
    from a free lock without interference ends, after at most eight
    statements, in the state that the method as a whole gives, having
    started the threads that the method records; and so does a call of
    [flush] whose flush function returns or raises, ending as a failed
    thread exactly when the method raises. *)
Theorem statements_agree_with_methods (cfg : config) (s : state) :
  _lock s = false →
  (∀ obs, ∃ s' spawned,
     add cfg obs s = Return tt s'
     ∧ run_solo 8 cfg (AddAcquire obs) s [] = (Finished, s', spawned)
     ∧ BgInvoke <$> threads s' = (BgInvoke <$> threads s) ++ spawned)
  ∧ (_flush_fn cfg (_observations s) ≠ Sleeps →
     ∃ s', run_solo 8 cfg FlushAcquire s []
           = (match flush cfg s with
              | Raise e _ => Failed e
              | _ => Finished
              end, s', [])
           ∧ (flush cfg s = Return tt s'
              ∨ ∃ e, flush cfg s = Raise e s')).
Proof.
  intros Hlock. split.
  - intros obs. rewrite add_unlocked by done.
    destruct s as [buf last lk now cs ws ts]. cbn in Hlock. subst lk.
    cbn -[length Z.of_nat].
    destruct (bool_decide (Z.of_nat (length (buf ++ [obs])) >= max_size cfg)
              || bool_decide (now - last >= flush_interval cfg)) eqn:Htrig;
      cbn -[length Z.of_nat]; rewrite ?Htrig.
    + assert (nonempty (buf ++ [obs]) = true) as Hne by (by destruct buf).
      cbn -[length Z.of_nat]. rewrite Hne. do 2 eexists.
      split_and!; [done|done|]. cbn. by rewrite fmap_app.
    + do 2 eexists. split_and!; [done|done|]. cbn. by rewrite app_nil_r.
  - intros Hfn. rewrite flush_unlocked by done.
    destruct s as [buf last lk now cs ws ts]. cbn in Hlock, Hfn. subst lk.
    cbn. destruct buf as [|o buf]; cbn.
    + eexists. split; [done|by left].
    + destruct (_flush_fn cfg (o :: buf)) as [|[name|name]|]; [..|done]; cbn;
        eexists; (split; [done|eauto]).
Qed.

Lemma statements_agree_with_methods_witness :
  ∃ s' spawned,
     add (Config (λ _, Returns) 1 30) (sample "a" 0) (init 0) = Return tt s'
     ∧ run_solo 8 (Config (λ _, Returns) 1 30) (AddAcquire (sample "a" 0))
         (init 0) [] = (Finished, s', spawned)
     ∧ BgInvoke <$> threads s' = (BgInvoke <$> threads (init 0)) ++ spawned.
Proof.
  apply (statements_agree_with_methods (Config (λ _, Returns) 1 30) (init 0)).
  reflexivity.
Defined.

End MachineExtras.

Module AggregatorExtras.
Import Aggregator AggregatorFacts.

Lemma step_keys (groups : groups_t) obs :
  (step groups obs).*1
  = groups.*1 ++ (if decide (obs_key obs ∈ groups.*1) then [] else [obs_key obs]).
Proof.
  unfold step. destruct (getitem (obs_key obs) groups) as [agg|] eqn:Hg.
  - rewrite setitem_keys, Hg. rewrite decide_True; [by rewrite app_nil_r|].
    apply dec_stable. intros Hn. apply getitem_None in Hn. congruence.
  - rewrite setitem_keys, Hg. apply getitem_None in Hg. by rewrite decide_False.
Qed.

Lemma filter_filter_ext {A} (P Q R : A → Prop)
  `{∀ x, Decision (P x)} `{∀ x, Decision (Q x)} `{∀ x, Decision (R x)} (l : list A) :
  (∀ x, R x ↔ P x ∧ Q x) → filter P (filter Q l) = filter R l.
Proof.
  intros HR. induction l as [|x l IH]; [done|].
  rewrite (filter_cons Q), (filter_cons R).
  destruct (decide (Q x)) as [HQ|HQ].
  - rewrite filter_cons. destruct (decide (P x)) as [HP|HP].
    + rewrite decide_True by (by apply HR). by rewrite IH.
    + rewrite decide_False by (rewrite HR; tauto). done.
  - rewrite decide_False by (rewrite HR; tauto). done.
Qed.

Lemma aggregate_from_keys (groups : groups_t) l :
  (aggregate_from groups l).*1
  = groups.*1 ++ filter (λ k, k ∉ groups.*1) (keep_first (obs_key <$> l)).
Proof.
  revert groups. induction l as [|obs l IH]; intros g.
  - cbn. by rewrite app_nil_r.
  - change (aggregate_from g (obs :: l)) with (aggregate_from (step g obs) l).
    rewrite IH, step_keys, fmap_cons. cbn [keep_first]. rewrite filter_cons.
    destruct (decide (obs_key obs ∈ g.*1)) as [Hin|Hnin].
    + rewrite app_nil_r, decide_False by tauto. f_equal.
      symmetry. apply filter_filter_ext. intros k. split; [|tauto].
      intros Hk. split; [done|]. by intros ->.
    + rewrite decide_True by done. rewrite <-app_assoc. cbn. do 2 f_equal.
      symmetry. apply filter_filter_ext. intros k.
      rewrite not_elem_of_app, list_elem_of_singleton. tauto.
Qed.

(** X15. The result of [aggregate] is ordered: its records come in the
    order in which their keys first occur in the batch. *)
Theorem aggregate_in_first_occurrence_order (observations : list Observation) :
  agg_key <$> aggregate observations = keep_first (obs_key <$> observations).
Proof.
  rewrite aggregate_keys, aggregate_from_keys. cbn [fmap list_fmap app].
  induction (keep_first (obs_key <$> observations)) as [|k l IH]; [done|].
  rewrite filter_cons, decide_True by apply not_elem_of_nil. by rewrite IH.
Qed.

Lemma total_count_setitem k agg (groups : groups_t) :
  total_count (values (setitem k agg groups))
  = total_count (values groups) - count_of (getitem k groups) + call_count agg.
Proof.
  unfold values. induction groups as [|[k' a'] rest IH]; csimpl.
  - lia.
  - destruct (decide (k = k')); csimpl; [lia|]. rewrite IH. lia.
Qed.

Lemma total_count_aggregate_from (groups : groups_t) l :
  total_count (values (aggregate_from groups l))
  = total_count (values groups) + Z.of_nat (length l).
Proof.
  revert groups. induction l as [|obs l IH]; intros g.
  - cbn [aggregate_from fold_left length]. lia.
  - change (aggregate_from g (obs :: l)) with (aggregate_from (step g obs) l).
    rewrite IH. unfold step.
    destruct (getitem (obs_key obs) g) as [agg|] eqn:Hg;
      rewrite total_count_setitem, Hg; cbn [count_of from_option merge fresh call_count length];
      lia.
Qed.

(** X16. Aggregation counts every observation once: the counts of the
    records of [aggregate] add up to the length of the batch. *)
Theorem aggregate_counts_every_observation (observations : list Observation) :
  total_count (aggregate observations) = Z.of_nat (length observations).
Proof. unfold aggregate. by rewrite total_count_aggregate_from. Qed.

Lemma aggregate_key_iff l k :
  k ∈ agg_key <$> aggregate l ↔ k ∈ obs_key <$> l.
Proof.
  rewrite aggregate_keys, <-with_key_nonempty, <-summary_is_Some.
  rewrite <-(getitem_aggregate_from k []).
  destruct (getitem k (aggregate_from [] l)) eqn:Hg.
  - split; [by eauto|]. intros _. apply dec_stable. intros Hn.
    apply getitem_None in Hn. congruence.
  - split; [|by intros [? ?]]. intros Hin. by apply getitem_None in Hg.
Qed.

(** X17. [aggregate] returns as many records as the batch has distinct
    keys. *)
Theorem aggregate_length (observations : list Observation) :
  length (aggregate observations)
  = size (list_to_set (obs_key <$> observations) : gset key).
Proof.
  rewrite <-(length_fmap agg_key).
  rewrite <-(size_list_to_set (C:=gset key));
    [|rewrite aggregate_keys; apply (aggregate_from_wf [] _ wf_nil)].
  f_equal. apply set_eq. intros k. rewrite !elem_of_list_to_set.
  apply aggregate_key_iff.
Qed.

End AggregatorExtras.

Module ExtractorFacts.
Import Dynamo Transformer Extractor KeyFacts.

(** Induction on documents, through arrays and objects. *)
Lemma json_nested_ind (P : json → Prop) :
  P JNull → (∀ b, P (JBool b)) → (∀ n, P (JNumber n)) → (∀ s, P (JString s)) →
  (∀ items, Forall P items → P (JArray items)) →
  (∀ members, Forall (λ m, P m.2) members → P (JObject members)) →
  ∀ v, P v.
Proof.
  intros Hnull Hbool Hnum Hstr Harr Hobj.
  refine (fix F (v : json) : P v :=
    match v with
    | JNull => Hnull
    | JBool b => Hbool b
    | JNumber n => Hnum n
    | JString s => Hstr s
    | JArray items =>
        Harr items
          ((fix G (l : list json) : Forall P l :=
              match l with
              | [] => Forall_nil_2 _
              | x :: l' => Forall_cons_2 _ _ _ (F x) (G l')
              end) items)
    | JObject members =>
        Hobj members
          ((fix G (l : list (string * json)) : Forall (λ m, P m.2) l :=
              match l with
              | [] => Forall_nil_2 _
              | m :: l' => Forall_cons_2 (λ m, P m.2) _ _ (F m.2) (G l')
              end) members)
    end).
Qed.

Lemma fields_of_object members max_depth depth prefix :
  fields_of (JObject members) max_depth depth prefix
  = ⋃ (member_fields max_depth depth prefix <$> members).
Proof.
  induction members as [|[key value] rest IH]; [done|].
  rewrite fmap_cons. cbn [union_list foldr]. rewrite <-IH. clear IH.
  cbn [fields_of]. unfold member_fields. cbn [fst snd].
  f_equal. f_equal.
  case_bool_decide; [|done]. destruct value as [| | | |items|ms]; try done.
  unfold nested_fields.
  induction items as [|item items IH]; [done|].
  rewrite fmap_cons. cbn [union_list foldr]. rewrite <-IH. done.
Qed.

(** Induction as [extract_fields] descends: into the objects that are
    members, and into the objects that are items of member arrays. *)
Lemma json_fields_ind (Q : json → Prop) :
  Q JNull → (∀ b, Q (JBool b)) → (∀ n, Q (JNumber n)) → (∀ s, Q (JString s)) →
  (∀ items, Q (JArray items)) →
  (∀ members,
     Forall (λ m, Q m.2 ∧ match m.2 with
                          | JArray items => Forall Q items
                          | _ => True
                          end) members →
     Q (JObject members)) →
  ∀ v, Q v.
Proof.
  intros Hnull Hbool Hnum Hstr Harr Hobj v.
  cut (Q v ∧ match v with JArray items => Forall Q items | _ => True end);
    [by intros [? _]|].
  induction v as [| | | |items IH|members IH] using json_nested_ind; try done.
  - split; [apply Harr|]. eapply Forall_impl; [exact IH|]. by intros ? [? _].
  - split; [|done]. apply Hobj. exact IH.
Qed.

Lemma fields_of_shape v :
  ∀ max_depth depth prefix,
    fields_of (shape v) max_depth depth prefix = fields_of v max_depth depth prefix.
Proof.
  induction v as [| | | |items|members IH] using json_fields_ind;
    intros max_depth depth prefix; try done.
  cbn [shape]. rewrite !fields_of_object. f_equal.
  rewrite <-list_fmap_compose. apply Forall_fmap_ext_1.
  eapply Forall_impl; [exact IH|]. intros [key value] [Hvalue Hitems].
  cbn in Hvalue, Hitems |- *.
  unfold member_fields. cbn [fst snd prod_map id]. f_equal.
  case_bool_decide; [|done].
  destruct value as [| | | |items|ms]; try done.
  - cbn [shape nested_fields]. f_equal. rewrite <-list_fmap_compose.
    apply Forall_fmap_ext_1. eapply Forall_impl; [exact Hitems|].
    intros item Hitem. cbn. destruct item as [| | | |items'|ms']; try done.
    apply Hitem.
  - unfold nested_fields. cbn [shape]. apply Hvalue.
Qed.

(** X18. Names only, never values: the fields that [extract_fields]
    reports depend on the shape of the document alone, its names and its
    nesting.  Blanking every scalar value leaves the result unchanged. *)
Theorem extract_fields_ignores_values (data : list (string * json))
  (max_depth : Z) :
  extract_fields (prod_map id shape <$> data) max_depth
  = extract_fields data max_depth.
Proof. apply (fields_of_shape (JObject data)). Qed.

Lemma fields_of_mono v :
  ∀ max_depth max_depth' depth prefix,
    max_depth ≤ max_depth' →
    fields_of v max_depth depth prefix ⊆ fields_of v max_depth' depth prefix.
Proof.
  induction v as [| | | |items|members IH] using json_fields_ind;
    intros m m' depth prefix Hm; try done.
  rewrite !fields_of_object.
  induction IH as [|[key value] rest [Hvalue Hitems] _ IHrest]; [done|].
  rewrite !fmap_cons. cbn [union_list foldr].
  apply union_mono; [|exact IHrest]. clear IHrest.
  unfold member_fields. cbn [fst snd] in *. apply union_mono_l.
  case_bool_decide as Hd; [|apply empty_subseteq].
  rewrite bool_decide_true by lia.
  destruct value as [| | | |items|ms]; try done.
  - unfold nested_fields. clear Hvalue.
    induction Hitems as [|item items' Hitem _ IHitems]; [done|].
    rewrite !fmap_cons. cbn [union_list foldr].
    apply union_mono; [|exact IHitems].
    destruct item as [| | | |i|ms']; try done. by apply Hitem.
  - by apply Hvalue.
Qed.

(** X19. A greater [max_depth] only adds fields: what is reported at one
    depth limit is reported at every greater one. *)
Theorem extract_fields_monotone (data : list (string * json))
  (max_depth max_depth' : Z) :
  max_depth ≤ max_depth' →
  extract_fields data max_depth ⊆ extract_fields data max_depth'.
Proof. apply (fields_of_mono (JObject data)). Qed.

Lemma extract_fields_monotone_witness :
  extract_fields [("user", JObject [("id", JNumber 7)])] 1
  ⊆ extract_fields [("user", JObject [("id", JNumber 7)])] 3.
Proof.
  apply (extract_fields_monotone [("user", JObject [("id", JNumber 7)])] 1 3).
  lia.
Defined.

(** X20. The top-level names are always reported, whatever the depth
    limit (even one below 1); and with a limit of 1 or less they are all
    that is reported. *)
Theorem extract_fields_top_level (data : list (string * json)) (max_depth : Z) :
  list_to_set data.*1 ⊆ extract_fields data max_depth
  ∧ (max_depth ≤ 1 → extract_fields data max_depth = list_to_set data.*1).
Proof.
  unfold extract_fields. rewrite fields_of_object. split.
  - induction data as [|[key value] rest IH]; [done|].
    rewrite !fmap_cons. cbn [union_list foldr list_to_set fst].
    apply union_mono; [|exact IH]. unfold member_fields. cbn [fst].
    apply union_subseteq_l.
  - intros Hmax. induction data as [|[key value] rest IH]; [done|].
    rewrite !fmap_cons. cbn [union_list foldr list_to_set fst]. rewrite IH.
    unfold member_fields. rewrite bool_decide_false by lia. cbn [fst].
    by rewrite (right_id_L ∅ (∪)).
Qed.

Lemma mentions_app c (a b : string) :
  mentions c (a +:+ b) = mentions c a || mentions c b.
Proof.
  induction a as [|c' a IH]; [done|].
  change (mentions c (String c' (a +:+ b))
          = mentions c (String c' a) || mentions c b).
  cbn [mentions]. by rewrite IH, orb_assoc.
Qed.

Lemma mentions_snoc sep cur c :
  mentions sep cur = false → Ascii.eqb c sep = false →
  mentions sep (cur +:+ String c "") = false.
Proof.
  intros Hcur Hc. rewrite mentions_app, Hcur. cbn [mentions].
  by rewrite Ascii.eqb_sym, Hc.
Qed.

Lemma split_all_parts_free sep cur s :
  mentions sep cur = false →
  Forall (λ p, mentions sep p = false) (split_all sep cur s).
Proof.
  revert cur. induction s as [|c s IH]; intros cur Hcur; cbn [split_all].
  - by repeat constructor.
  - destruct (Ascii.eqb c sep) eqn:Hc.
    + constructor; [done|]. by apply IH.
    + by apply IH, mentions_snoc.
Qed.

(** The part before the first separator: an extension of [cur] by a prefix
    of [s] that has no separator, and no character that [s] has not. *)
Lemma split_char_head sep n cur s :
  ∃ pre, hd "" (split_char sep (S n) cur s) = cur +:+ pre
         ∧ mentions sep pre = false
         ∧ ∀ c, mentions c s = false → mentions c pre = false.
Proof.
  revert cur. induction s as [|c s IH]; intros cur; cbn [split_char].
  - exists "". by rewrite append_nil_r.
  - destruct (Ascii.eqb c sep) eqn:Hc.
    + exists "". by rewrite append_nil_r.
    + destruct (IH (cur +:+ String c "")) as (pre & Hhd & Hsep & Hother).
      exists (String c pre). rewrite Hhd, append_assoc. split_and!.
      * done.
      * cbn [mentions]. by rewrite Ascii.eqb_sym, Hc, Hsep.
      * intros c0. cbn [mentions]. intros [H0 Hs]%orb_false_iff.
        by rewrite H0, Hother.
Qed.

Lemma string_eqb_empty (k : string) : String.eqb k "" = false ↔ k ≠ "".
Proof. by destruct k. Qed.

Lemma add_param_names (params : gset string) (part : string) (P : string → Prop) :
  (∀ k, k ∈ params → P k) →
  (∀ k, k ≠ "" → (∃ pre, k = pre ∧ mentions "=" pre = false
                          ∧ ∀ c, mentions c part = false → mentions c pre = false)
        → P k) →
  ∀ k, k ∈ add_param params part → P k.
Proof.
  intros Hparams Hnew k. unfold add_param.
  destruct (split_char_head "=" 0 "" part) as (pre & Hhd & Heq & Hother).
  change ("" +:+ pre) with pre in Hhd. rewrite Hhd.
  destruct (String.eqb pre "") eqn:Hempty; [apply Hparams|].
  intros [Hk|Hk%elem_of_singleton]%elem_of_union; [by apply Hparams|].
  subst k. apply Hnew; [by apply string_eqb_empty|]. by exists pre.
Qed.

(** X21. The names that [extract_query_params] reports are names: none is
    empty, and none contains [&] or [=] - so none carries a value. *)
Theorem extract_query_params_names (query_string k : string) :
  k ∈ extract_query_params query_string →
  k ≠ "" ∧ mentions "&" k = false ∧ mentions "=" k = false.
Proof.
  unfold extract_query_params. destruct (String.eqb query_string ""); [done|].
  pose proof (split_all_parts_free "&" "" query_string eq_refl) as Hparts.
  revert Hparts. generalize (split_all "&" "" query_string) as parts.
  intros parts Hparts.
  assert (∀ k, k ∈ (∅ : gset string) →
               k ≠ "" ∧ mentions "&" k = false ∧ mentions "=" k = false) as Hacc
    by (by intros ? ?%not_elem_of_empty).
  revert Hacc k. generalize (∅ : gset string) as acc.
  induction Hparts as [|part parts Hpart _ IH]; intros acc Hacc k; [apply Hacc|].
  cbn [fold_left]. apply IH. intros k'.
  apply (add_param_names acc part
           (λ k, k ≠ "" ∧ mentions "&" k = false ∧ mentions "=" k = false));
    [exact Hacc|].
  intros k0 Hne (pre & -> & Heq & Hother). split_and!; [done| |done].
  by apply Hother.
Qed.

Lemma extract_query_params_names_witness :
  "page" ≠ "" ∧ mentions "&" "page" = false ∧ mentions "=" "page" = false.
Proof.
  apply (extract_query_params_names "page=1&sort=asc" "page").
  vm_compute. set_solver.
Defined.

Lemma split_all_free sep cur s :
  mentions sep s = false → split_all sep cur s = [cur +:+ s].
Proof.
  revert cur. induction s as [|c s IH]; intros cur Hs; cbn [split_all].
  - by rewrite append_nil_r.
  - cbn [mentions] in Hs. apply orb_false_iff in Hs as [Hc Hs].
    rewrite Ascii.eqb_sym, Hc, IH, append_assoc; done.
Qed.

Lemma split_all_first sep cur s rest :
  mentions sep s = false →
  split_all sep cur (s +:+ String sep rest) = (cur +:+ s) :: split_all sep "" rest.
Proof.
  revert cur. induction s as [|c s IH]; intros cur Hs.
  - change (split_all sep cur (String sep rest)
            = (cur +:+ "") :: split_all sep "" rest).
    cbn [split_all]. by rewrite Ascii.eqb_refl, append_nil_r.
  - change (split_all sep cur (String c (s +:+ String sep rest))
            = (cur +:+ String c s) :: split_all sep "" rest).
    cbn [split_all]. cbn [mentions] in Hs. apply orb_false_iff in Hs as [Hc Hs].
    rewrite Ascii.eqb_sym, Hc, IH, append_assoc; done.
Qed.

Lemma split_all_concat sep (x : string) (l : list string) :
  mentions sep x = false →
  Forall (λ p, mentions sep p = false) l →
  split_all sep "" (String.concat (String sep "") (x :: l)) = x :: l.
Proof.
  intros Hx Hl. revert x Hx. induction Hl as [|y l Hy _ IH]; intros x Hx.
  - cbn [String.concat]. by rewrite split_all_free.
  - change (String.concat (String sep "") (x :: y :: l))
      with (x +:+ String sep (String.concat (String sep "") (y :: l))).
    rewrite split_all_first by done. by rewrite IH.
Qed.

Lemma render_param_free p : plain_param p → mentions "&" (render_param p) = false.
Proof.
  destruct p as [k [v|]]; intros (Hne & Hamp & Heq & Hv); cbn in *; [|done].
  rewrite mentions_app, Hamp. change ("=" +:+ v) with (String "=" v).
  cbn [mentions]. by rewrite Hv.
Qed.

Lemma add_param_render params p :
  plain_param p → add_param params (render_param p) = params ∪ {[ p.1 ]}.
Proof.
  destruct p as [k [v|]]; intros (Hne & Hamp & Heq & Hv); cbn in Hne, Heq |- *;
    unfold add_param, render_param; cbn [fst snd].
  - change (k +:+ "=" +:+ v) with (k +:+ String "=" v).
    rewrite (split_char_first "=" 0 "" k v) by done. cbn [hd].
    change ("" +:+ k) with k. by rewrite (proj2 (string_eqb_empty k)).
  - rewrite split_char_free by done. cbn [hd].
    change ("" +:+ k) with k. by rewrite (proj2 (string_eqb_empty k)).
Qed.

Lemma fold_add_param_render ps params :
  Forall plain_param ps →
  fold_left add_param (render_param <$> ps) params = params ∪ list_to_set ps.*1.
Proof.
  intros Hps. revert params.
  induction Hps as [|p ps Hp _ IH]; intros params.
  - cbn. by rewrite (right_id_L ∅ (∪)).
  - rewrite !fmap_cons. cbn [fold_left list_to_set].
    rewrite add_param_render by done. rewrite IH. by rewrite (assoc_L (∪)).
Qed.

(** X22. The names of a query string come back: for parameters written
    [key] or [key=value], joined with [&], whose keys are not empty and have
    no [&] and no [=] and whose values have no [&], [extract_query_params]
    returns exactly the set of the keys. *)
Theorem extract_query_params_round_trip (ps : list (string * option string)) :
  Forall plain_param ps →
  extract_query_params (String.concat "&" (render_param <$> ps))
  = list_to_set ps.*1.
Proof.
  intros Hps. unfold extract_query_params.
  destruct ps as [|p ps]; [done|].
  apply Forall_cons in Hps as [Hp Hps].
  assert (String.eqb (String.concat "&" (render_param <$> p :: ps)) "" = false)
    as ->.
  { apply string_eqb_empty. destruct Hp as (Hne & _).
    rewrite fmap_cons. destruct p as [[|c k] v]; [done|].
    destruct (render_param <$> ps); destruct v; done. }
  rewrite fmap_cons, split_all_concat.
  - rewrite <-fmap_cons, fold_add_param_render by (by constructor).
    by rewrite (left_id_L ∅ (∪)).
  - by apply render_param_free.
  - apply Forall_fmap. eapply Forall_impl; [exact Hps|]. apply render_param_free.
Qed.

Lemma extract_query_params_round_trip_witness :
  extract_query_params
    (String.concat "&"
       (render_param <$> [("page", Some "1"); ("debug", None); ("q", Some "a=b")]))
  = list_to_set [("page", Some "1"); ("debug", None); ("q", Some "a=b")].*1.
Proof.
  apply (extract_query_params_round_trip
           [("page", Some "1"); ("debug", None); ("q", Some "a=b")]).
  repeat constructor; discriminate.
Defined.

End ExtractorFacts.

Module StoreWitnesses.
Import Aggregator Dynamo Buffer.

Lemma write_observation_upserts_witness :
  ∃ t', write_observation isoformat_stub ∅ (sample_agg "checkout" 5 100) 90 = Ok t'
        ∧ t' !! (pk (sample_agg "checkout" 5 100), sk (sample_agg "checkout" 5 100))
          = Some (upsert_effect isoformat_stub
                    (item_or_new ∅ (pk (sample_agg "checkout" 5 100),
                                    sk (sample_agg "checkout" 5 100)))
                    (sample_agg "checkout" 5 100) 90)
        ∧ (∀ k, k ≠ (pk (sample_agg "checkout" 5 100),
                     sk (sample_agg "checkout" 5 100)) → t' !! k = (∅ : table) !! k)
        ∧ table_well_typed t'.
Proof.
  apply (StoreFacts.write_observation_upserts isoformat_stub ∅
           (sample_agg "checkout" 5 100) 90).
  apply StoreFacts.table_well_typed_empty.
Defined.

Lemma write_observation_accumulates_witness :
  ∃ (t1 t2 : table) (r : item),
    write_observation isoformat_stub ∅ (sample_agg "checkout" 3 100) 90 = Ok t1
    ∧ write_observation isoformat_stub t1 (sample_agg "checkout" 2 200) 90 = Ok t2
    ∧ t2 !! (pk (sample_agg "checkout" 3 100), sk (sample_agg "checkout" 3 100))
      = Some r
    ∧ size t2 = 1%nat
    ∧ r !! "call_count" = Some (AttrN (3 + 2)).
Proof.
  destruct (StoreFacts.write_observation_accumulates isoformat_stub
              (sample_agg "checkout" 3 100) (sample_agg "checkout" 2 200) 90
              eq_refl)
    as (t1 & t2 & r & H1 & H2 & H3 & H4 & H5 & _).
  exists t1, t2, r. repeat split; assumption.
Defined.

Lemma write_observation_commutes_witness :
  ∃ t12 t21 : table,
    rbind (write_observation isoformat_stub ∅ (sample_agg "checkout" 3 100) 90)
      (λ t', write_observation isoformat_stub t' (sample_agg "mobile" 2 200) 90)
    = Ok t12
    ∧ rbind (write_observation isoformat_stub ∅ (sample_agg "mobile" 2 200) 90)
        (λ t', write_observation isoformat_stub t' (sample_agg "checkout" 3 100) 90)
      = Ok t21
    ∧ dom t12 = dom t21.
Proof.
  destruct (StoreFacts.write_observation_commutes isoformat_stub ∅
              (sample_agg "checkout" 3 100) (sample_agg "mobile" 2 200) 90
              StoreFacts.table_well_typed_empty)
    as (t12 & t21 & H1 & H2 & H3 & _).
  exists t12, t21. repeat split; assumption.
Defined.

Lemma flush_observations_any_order_witness :
  ∃ t',
    run_writes isoformat_stub
      (reverse (aggregate [sample "checkout" 0; sample "mobile" 1; sample "checkout" 2]))
      ∅ 90 = (t', 0%nat)
    ∧ flush_observations isoformat_stub
        [sample "checkout" 0; sample "mobile" 1; sample "checkout" 2] ∅ 90
      = (t', 0%nat).
Proof.
  destruct (FlushFacts.flush_observations_any_order isoformat_stub
              [sample "checkout" 0; sample "mobile" 1; sample "checkout" 2] ∅ 90
              (reverse (aggregate
                 [sample "checkout" 0; sample "mobile" 1; sample "checkout" 2])))
    as (t' & H1 & H2 & _).
  - repeat constructor.
  - apply StoreFacts.table_well_typed_empty.
  - apply reverse_Permutation.
  - exists t'. split; assumption.
Defined.

End StoreWitnesses.
